(** * Value.js of react-forms: form values as an immutable tree

    A shallow embedding of [src/Value.js].  JavaScript objects that the
    module compares by reference (error records, roots, branches) carry the
    identity they were allocated with; the module-level flag, the allocator
    and the trace of [onChange] invocations are threaded through a small
    state-and-exception monad. *)

From Stdlib Require Import ZArith String Ascii List Bool Lia.
From stdpp Require Import base option list strings gmap pretty.

Set Default Proof Using "Type".
#[local] Set Warnings "-register-all".

(** ** JavaScript data *)

(** Data values: documents, params and the attributes of error records. *)
Inductive JSValue : Type :=
  | JUndefined
  | JNull
  | JBool (b : bool)
  | JNumber (n : Z)
  | JString (s : string)
  | JArray (items : list JSValue)
  | JObject (members : gmap string JSValue).

(** Identity of a heap-allocated object. *)
Definition Oid := nat.

(** Identity of a function object (the [onChange] callback of a root). *)
Definition FunRef := nat.

(** An object: its identity and its own enumerable properties. *)
Record Obj : Type := mkObj {
  oid : Oid;
  own : gmap string JSValue
}.

(** [error.name]: a missing property reads as [undefined]. *)
Definition getProp (o : Obj) (name : string) : JSValue :=
  default JUndefined (own o !! name).

(** [{...error, field}]: the own properties of the fresh object. *)
Definition spreadWithField (error : Obj) (field : string) : gmap string JSValue :=
  <["field" := JString field]> (own error).

(** [x === s] for a string [s]. *)
Definition strictEqString (x : JSValue) (s : string) : bool :=
  match x with
  | JString t => String.eqb t s
  | _ => false
  end.

(** [a === b] on objects: the same reference. *)
Definition sameObject (a b : Obj) : bool := Nat.eqb (oid a) (oid b).

(** A key path segment: a field name or an index. *)
Inductive Segment : Type :=
  | SKey (name : string)
  | SIndex (index : N).

Definition KeyPath := list Segment.

(** [ToString] of a segment, as [Array.prototype.join] applies it.  An index
    prints as its decimal digits, which is what JavaScript prints for the
    indices an array can have (from [1e21] on it prints an exponent). *)
Definition toString (seg : Segment) : string :=
  match seg with
  | SKey name => name
  | SIndex index => pretty index
  end.

(** [Array.prototype.join]: the result [R] starts as the first element and
    takes, for every further element, the separator and then the element. *)
Definition join (sep : string) (elements : list string) : string :=
  match elements with
  | [] => EmptyString
  | first :: others =>
      fold_left (fun R next => (R +:+ sep) +:+ next) others first
  end.

(** [['data'].concat(keyPath).join('.')] *)
Definition dataField (keyPath : KeyPath) : string :=
  join "." ("data" :: map toString keyPath).

(** [Array.prototype.indexOf] on a list of objects, [-1] when absent. *)
Fixpoint indexOfFrom (k : Z) (l : list Obj) (searchElement : Obj) : Z :=
  match l with
  | [] => (-1)%Z
  | x :: rest =>
      if sameObject x searchElement then k
      else indexOfFrom (k + 1)%Z rest searchElement
  end.

Definition indexOf (l : list Obj) (searchElement : Obj) : Z :=
  indexOfFrom 0%Z l searchElement.

(** [copy = l.slice(0); copy.splice(idx, 1)] for [idx >= 0]. *)
Definition splice1 (l : list Obj) (idx : Z) : list Obj :=
  take (Z.to_nat idx) l ++ drop (S (Z.to_nat idx)) l.

(** ** Key normalisation (./keyPath) *)

(** What a caller may pass to [select]. *)
Inductive Key : Type :=
  | KeyAbsent
  | KeyIndex (index : N)
  | KeyString (s : string)
  | KeyArray (keyPath : KeyPath).

Fixpoint splitDots (current : string) (s : string) : list string :=
  match s with
  | EmptyString => [current]
  | String c rest =>
      if Ascii.eqb c "."%char then current :: splitDots EmptyString rest
      else splitDots (current +:+ String c EmptyString) rest
  end.

Definition digitValue (c : ascii) : option N :=
  let n := N_of_ascii c in
  if ((48 <=? n) && (n <=? 57))%N then Some (n - 48)%N else None.

Fixpoint parseDigits (acc : N) (s : string) : option N :=
  match s with
  | EmptyString => Some acc
  | String c rest =>
      match digitValue c with
      | Some d => parseDigits (acc * 10 + d)%N rest
      | None => None
      end
  end.

Definition parseSegment (s : string) : Segment :=
  match s with
  | EmptyString => SKey s
  | _ => match parseDigits 0%N s with
         | Some n => SIndex n
         | None => SKey s
         end
  end.

(** Modelled from the spec: [makeKeyPath] of [./keyPath], which is not part
    of the sources at hand.  An absent key is the empty path, a single
    segment is a one-segment path, a dotted string is split on the dots with
    the segments that parse as integers taken as indices, and a sequence of
    segments is the path itself. *)
Definition makeKeyPath (key : Key) : KeyPath :=
  match key with
  | KeyAbsent => []
  | KeyIndex index => [SIndex index]
  | KeyString EmptyString => []
  | KeyString s =>
      match splitDots EmptyString s with
      | [single] => [SKey single]
      | parts => map parseSegment parts
      end
  | KeyArray keyPath => keyPath
  end.

(** ** Exceptions *)

Inductive Exn : Type :=
  | TypeError
  | Thrown (v : JSValue).

Inductive Outcome (A : Type) : Type :=
  | Return (a : A)
  | Throw (e : Exn).
Arguments Return {A} a.
Arguments Throw {A} e.

(** [Array.prototype.filter] with a callback that may throw: the elements are
    visited in order and the first exception aborts the whole call. *)
Fixpoint filterThrowing {A : Type} (keep : A -> Outcome bool) (l : list A)
  : Outcome (list A) :=
  match l with
  | [] => Return []
  | x :: rest =>
      match keep x with
      | Throw e => Throw e
      | Return b =>
          match filterThrowing keep rest with
          | Throw e => Throw e
          | Return kept => Return (if b then x :: kept else kept)
          end
      end
  end.

(** ** Error filters *)

Definition filterErrorListByKeyPath (errorList : list Obj) (keyPath : KeyPath)
  : list Obj :=
  let field := dataField keyPath in
  List.filter (fun error => strictEqString (getProp error "field") field) errorList.

(** The callback of the prefix filter.  [error.field.slice] is a method call:
    it exists on strings and on arrays (an array slice is never [===] to a
    string) and raises a [TypeError] on every other value. *)
Definition prefixMatches (field : string) (error : Obj) : Outcome bool :=
  let length := String.length field in
  if strictEqString (getProp error "field") field then Return true
  else
    match getProp error "field" with
    | JString s =>
        Return (String.eqb (substring 0 length s) field
                && match String.get length s with
                   | Some c => Ascii.eqb c "."%char
                   | None => false
                   end)
    | JArray _ => Return false
    | _ => Throw TypeError
    end.

Definition filterErrorListByKeyPathPrefix (errorList : list Obj) (keyPath : KeyPath)
  : Outcome (list Obj) :=
  if Nat.eqb (List.length keyPath) 0 then Return errorList
  else
    let field := dataField keyPath in
    filterThrowing (prefixMatches field) errorList.

(** ** Roots, branches and the module state *)

(** What the module imports and does not define: the schema, opaque to it,
    and [update_at], the document updater [update] of [./update].  The
    updater and the [validate] function a root carries are taken as
    functions that return; [onChange] is only ever called, so a root holds
    the identity of its callback and every call is recorded in the state. *)
Class Imports : Type := {
  Schema : Type;
  update_at : JSValue -> KeyPath -> JSValue -> Schema -> JSValue
}.

Section ValueTree.

Context {imports : Imports}.

Record ValueRoot : Type := mkValueRoot {
  root_oid : Oid;
  schema : Schema;
  value : JSValue;
  onChange : FunRef;
  params : gmap string JSValue;
  _errorList : list Obj;
  _externalErrorList : list Obj;
  validate : Schema -> JSValue -> list Obj
}.

Inductive Value : Type :=
  | VRoot (r : ValueRoot)
  | VBranch (branch_oid : Oid) (r : ValueRoot) (path : KeyPath).

(** [this.root]: a root is its own root. *)
Definition root (this : Value) : ValueRoot :=
  match this with
  | VRoot r => r
  | VBranch _ r _ => r
  end.

(** [this.keyPath]: fixed to the empty path on a root. *)
Definition keyPath (this : Value) : KeyPath :=
  match this with
  | VRoot _ => []
  | VBranch _ _ path => path
  end.

(** One invocation of a callback: [callee(newRoot, editedKeyPath)]. *)
Record Call : Type := mkCall {
  callee : FunRef;
  call_root : ValueRoot;
  call_keyPath : KeyPath
}.

(** The state the module runs in: its flag [suppressUpdateContextual], the
    next identity the allocator hands out, and the callback invocations made
    so far, oldest first. *)
Record State : Type := mkState {
  suppressUpdateContextual : bool;
  nextOid : Oid;
  calls : list Call
}.

(** Computations: they read and write the state and return or throw. *)
Definition M (A : Type) : Type := State -> Outcome A * State.

Definition ret {A : Type} (a : A) : M A := fun s => (Return a, s).

Definition throw {A : Type} (e : Exn) : M A := fun s => (Throw e, s).

Definition bind {A B : Type} (m : M A) (k : A -> M B) : M B :=
  fun s =>
    match m s with
    | (Return a, s') => k a s'
    | (Throw e, s') => (Throw e, s')
    end.

(** [try { body } finally { cleanup }]: the cleanup runs on both exits and
    the outcome of the body stands unless the cleanup itself throws. *)
Definition tryFinally {A : Type} (body : M A) (cleanup : M unit) : M A :=
  fun s =>
    match body s with
    | (outcome, s') =>
        match cleanup s' with
        | (Return _, s'') => (outcome, s'')
        | (Throw e, s'') => (Throw e, s'')
        end
    end.

#[local] Notation "'let*' x ':=' m 'in' k" := (bind m (fun x => k))
  (at level 10, x name, m at level 100, k at level 200).
#[local] Notation "m ';;' k" := (bind m (fun _ => k))
  (at level 100, k at level 200, right associativity).

Definition setSuppressUpdateContextual (b : bool) : M unit :=
  fun s => (Return tt, mkState b (nextOid s) (calls s)).

Definition getSuppressUpdateContextual : M bool :=
  fun s => (Return (suppressUpdateContextual s), s).

(** Allocation of an object. *)
Definition alloc : M Oid :=
  fun s => (Return (nextOid s),
            mkState (suppressUpdateContextual s) (S (nextOid s)) (calls s)).

(** Calling a callback: the invocation is recorded. *)
Definition invoke (f : FunRef) (newRoot : ValueRoot) (path : KeyPath) : M unit :=
  fun s => (Return tt,
            mkState (suppressUpdateContextual s) (nextOid s)
                    (calls s ++ [mkCall f newRoot path])).

Definition when (b : bool) (m : M unit) : M unit :=
  if b then m else ret tt.

(** ** suppressUpdate *)

Definition suppressUpdate {A : Type} (tx : M A) : M A :=
  setSuppressUpdateContextual true;;
  tryFinally tx (setSuppressUpdateContextual false).

(** ** Constructors *)

(** [new ValueRoot({schema, value, onChange, params, errorList,
    externalErrorList, validate})] *)
Definition newValueRoot (schema : Schema) (value : JSValue) (onChange : FunRef)
    (params : gmap string JSValue) (errorList externalErrorList : list Obj)
    (validate : Schema -> JSValue -> list Obj) : M ValueRoot :=
  let* id := alloc in
  ret (mkValueRoot id schema value onChange params errorList externalErrorList
                   validate).

(** [new ValueBranch(root, keyPath)] *)
Definition newValueBranch (root : ValueRoot) (keyPath : KeyPath) : M Value :=
  let* id := alloc in
  ret (VBranch id root keyPath).

(** The object literal handed to [createRoot]: the keys it has. *)
Record RootUpdate : Type := mkRootUpdate {
  upd_schema : option Schema;
  upd_value : option JSValue;
  upd_onChange : option FunRef;
  upd_params : option (gmap string JSValue);
  upd_errorList : option (list Obj);
  upd_externalErrorList : option (list Obj);
  upd_validate : option (Schema -> JSValue -> list Obj)
}.

Definition noUpdate : RootUpdate :=
  mkRootUpdate None None None None None None None.

(** ** The methods of Value *)

Definition select (this : Value) (key : Key) : M Value :=
  let keyPath' := makeKeyPath key in
  if Nat.eqb (List.length keyPath') 0 then ret this
  else newValueBranch (root this) (keyPath this ++ keyPath').

Definition errorList (this : Value) : list Obj :=
  let validateErrorList :=
    filterErrorListByKeyPath (_errorList (root this)) (keyPath this) in
  let externalErrorList :=
    filterErrorListByKeyPath (_externalErrorList (root this)) (keyPath this) in
  validateErrorList ++ externalErrorList.

Definition completeErrorList (this : Value) : Outcome (list Obj) :=
  match filterErrorListByKeyPathPrefix (_errorList (root this)) (keyPath this) with
  | Throw e => Throw e
  | Return validateErrorList =>
      match filterErrorListByKeyPathPrefix (_externalErrorList (root this))
                                           (keyPath this) with
      | Throw e => Throw e
      | Return externalErrorList => Return (validateErrorList ++ externalErrorList)
      end
  end.

(** [new ValueRoot({...values, ...update})]: a key of [update] wins over the
    field of the current root. *)
Definition createRoot (this : Value) (update : RootUpdate) : M ValueRoot :=
  let r := root this in
  newValueRoot
    (default (schema r) (upd_schema update))
    (default (value r) (upd_value update))
    (default (onChange r) (upd_onChange update))
    (default (params r) (upd_params update))
    (default (_errorList r) (upd_errorList update))
    (default (_externalErrorList r) (upd_externalErrorList update))
    (default (validate r) (upd_validate update)).

(** The notification step shared by the mutating methods. *)
Definition notify (this : Value) (nextRoot : ValueRoot) (suppressUpdate : bool)
  : M unit :=
  let* contextual := getSuppressUpdateContextual in
  when (negb suppressUpdate && negb contextual)
       (invoke (onChange (root this)) nextRoot (keyPath this)).

Definition updateParams (this : Value) (params' : gmap string JSValue)
    (suppressUpdate : bool) : M Value :=
  let params'' := params' ∪ params (root this) in
  let* nextRoot := createRoot this
    (mkRootUpdate None None None (Some params'') None None None) in
  notify this nextRoot suppressUpdate;;
  select (VRoot nextRoot) (KeyArray (keyPath this)).

Definition update (this : Value) (valueUpdate : JSValue) (suppressUpdate : bool)
  : M Value :=
  let value' :=
    if Nat.eqb (List.length (keyPath this)) 0 then valueUpdate
    else update_at (value (root this)) (keyPath this) valueUpdate
                   (schema (root this)) in
  let errorList := validate (root this) (schema (root this)) value' in
  let* nextRoot := createRoot this
    (mkRootUpdate None (Some value') None None (Some errorList) None None) in
  notify this nextRoot suppressUpdate;;
  select (VRoot nextRoot) (KeyArray (keyPath this)).

(** The argument of [updateError]: one record, or an array of records
    ([Array.isArray(error)]). *)
Inductive ErrorArg : Type :=
  | OneError (error : Obj)
  | ErrorArray (errors : list Obj).

(** The object literal [{...error, field}]: a fresh object. *)
Definition stamp (field : string) (error : Obj) : M Obj :=
  let* id := alloc in
  ret (mkObj id (spreadWithField error field)).

(** [Array.prototype.map] with a callback that runs in [M]. *)
Fixpoint mapM {A B : Type} (f : A -> M B) (l : list A) : M (list B) :=
  match l with
  | [] => ret []
  | x :: rest =>
      let* y := f x in
      let* ys := mapM f rest in
      ret (y :: ys)
  end.

Definition updateError (this : Value) (error : ErrorArg) (suppressUpdate : bool)
  : M Value :=
  let field := dataField (keyPath this) in
  let* externalErrorList :=
    match error with
    | ErrorArray errors => mapM (stamp field) errors
    | OneError error => (let* stamped := stamp field error in ret [stamped])
    end in
  let* nextRoot := createRoot this
    (mkRootUpdate None None None None None (Some externalErrorList) None) in
  notify this nextRoot suppressUpdate;;
  select (VRoot nextRoot) (KeyArray (keyPath this)).

Definition addError (this : Value) (error : Obj) (suppressUpdate : bool)
  : M Value :=
  let* error' := stamp (dataField (keyPath this)) error in
  let externalErrorList := _externalErrorList (root this) ++ [error'] in
  let* nextRoot := createRoot this
    (mkRootUpdate None None None None None (Some externalErrorList) None) in
  notify this nextRoot suppressUpdate;;
  select (VRoot nextRoot) (KeyArray (keyPath this)).

Definition removeError (this : Value) (error : Obj) (suppressUpdate : bool)
  : M Value :=
  let idx := indexOf (_externalErrorList (root this)) error in
  if (idx >? -1)%Z then
    let externalErrorList := splice1 (_externalErrorList (root this)) idx in
    let* nextRoot := createRoot this
      (mkRootUpdate None None None None None (Some externalErrorList) None) in
    notify this nextRoot suppressUpdate;;
    select (VRoot nextRoot) (KeyArray (keyPath this))
  else ret this.

(** ** ValueRoot.setSchema *)

Definition setSchema (this : ValueRoot) (schema' : Schema) : M ValueRoot :=
  let errorList := validate this schema' (value this) in
  createRoot (VRoot this)
    (mkRootUpdate (Some schema') None None None (Some errorList) None None).

(** ** Running a computation *)

Definition result {A : Type} (run : Outcome A * State) : Outcome A := fst run.
Definition final {A : Type} (run : Outcome A * State) : State := snd run.

(** ** Vocabulary of the statements *)

(** The value [nextRoot.select(keyPath)] gives back: the root itself at the
    empty path, else a branch allocated with identity [id]. *)
Definition reselected (nextRoot : ValueRoot) (path : KeyPath) (id : Oid) : Value :=
  match path with
  | [] => VRoot nextRoot
  | _ => VBranch id nextRoot path
  end.

(** How many objects [nextRoot.select(keyPath)] allocates. *)
Definition branchCost (path : KeyPath) : nat :=
  match path with
  | [] => 0
  | _ => 1
  end.

(** The invocations a mutating method adds to the trace. *)
Definition notification (this : Value) (nextRoot : ValueRoot)
    (suppressUpdate contextual : bool) : list Call :=
  if negb suppressUpdate && negb contextual
  then [mkCall (onChange (root this)) nextRoot (keyPath this)]
  else [].

(** The state after [n] allocations and the invocations [log]. *)
Definition advance (n : nat) (log : list Call) (s : State) : State :=
  mkState (suppressUpdateContextual s) (nextOid s + n) (calls s ++ log).

(** A notification is not suppressed: neither by the argument of the call
    nor by the flag of the module. *)
Definition notSuppressed (suppressUpdate : bool) (s : State) : Prop :=
  suppressUpdate = false /\ suppressUpdateContextual s = false.

(** A run returned a value whose root is new (allocated during the run) and
    made exactly one callback invocation: [onChange(newRoot, this.keyPath)]
    on the callback of the root of [this]. *)
Definition notifiedOnce (this : Value) (s : State) (run : Outcome Value * State)
  : Prop :=
  exists v' : Value,
    result run = Return v'
    /\ nextOid s <= root_oid (root v') < nextOid (final run)
    /\ calls (final run)
       = calls s ++ [mkCall (onChange (root this)) (root v') (keyPath this)].

(** The records of an [updateError] argument, in order. *)
Definition suppliedErrors (error : ErrorArg) : list Obj :=
  match error with
  | OneError error => [error]
  | ErrorArray errors => errors
  end.

(** The stamped copies of [errors], allocated one after the other from
    identity [base] on. *)
Fixpoint stampedFrom (field : string) (base : Oid) (errors : list Obj) : list Obj :=
  match errors with
  | [] => []
  | error :: rest =>
      mkObj base (spreadWithField error field) :: stampedFrom field (S base) rest
  end.

(** The root [createRoot] builds from [this] with a new external error list. *)
Definition withExternalErrorList (id : Oid) (r : ValueRoot) (l : list Obj)
  : ValueRoot :=
  mkValueRoot id (schema r) (value r) (onChange r) (params r) (_errorList r) l
              (validate r).

(** The document [update] stores. *)
Definition updatedDocument (this : Value) (valueUpdate : JSValue) : JSValue :=
  match keyPath this with
  | [] => valueUpdate
  | _ => update_at (value (root this)) (keyPath this) valueUpdate
                   (schema (root this))
  end.

(** Two runs of one method, [op] taking the per-call suppression argument,
    give the same outcome and allocate the same objects; the first leaves the
    flag as it found it, and adds nothing to the trace when it is
    suppressed. *)
Definition sameProduct (op : bool -> M Value) (b1 b2 : bool) (s1 s2 : State)
  : Prop :=
  result (op b1 s1) = result (op b2 s2)
  /\ nextOid (final (op b1 s1)) = nextOid (final (op b2 s2))
  /\ suppressUpdateContextual (final (op b1 s1)) = suppressUpdateContextual s1
  /\ (b1 = true \/ suppressUpdateContextual s1 = true ->
      calls (final (op b1 s1)) = calls s1).

(** [error] is, by reference, one of the entries of [l]. *)
Definition heldIn (error : Obj) (l : list Obj) : Prop :=
  Exists (fun entry => oid entry = oid error) l.

(** The field string of a key path as the error records spell it: ["data"]
    followed, for each segment, by a dot and the segment. *)
Fixpoint dotJoined (path : KeyPath) : string :=
  match path with
  | [] => EmptyString
  | seg :: rest => "." +:+ toString seg +:+ dotJoined rest
  end.

Definition fieldOfPath (path : KeyPath) : string := "data" +:+ dotJoined path.

(** [kept] holds exactly the entries of [source] that satisfy [P], in the
    order of [source]. *)
Inductive Selects {A : Type} (P : A -> Prop) : list A -> list A -> Prop :=
  | Selects_nil : Selects P [] []
  | Selects_keep (x : A) (source kept : list A) :
      P x -> Selects P source kept -> Selects P (x :: source) (x :: kept)
  | Selects_skip (x : A) (source kept : list A) :
      ~ P x -> Selects P source kept -> Selects P (x :: source) kept.

(** The record has a string for [field]: the shape of an error record. *)
Definition ErrorRecord (error : Obj) : Prop :=
  exists s : string, own error !! "field" = Some (JString s).

(** The [field] of the record is the string [field]. *)
Definition fieldIs (field : string) (error : Obj) : Prop :=
  own error !! "field" = Some (JString field).

(** [s] starts with [field] followed immediately by a dot. *)
Definition startsWithDot (field s : string) : Prop :=
  exists rest : string, s = field +:+ "." +:+ rest.

(** The [field] of the record is [field] or lies below it. *)
Definition fieldUnder (field : string) (error : Obj) : Prop :=
  exists s : string,
    own error !! "field" = Some (JString s)
    /\ (s = field \/ startsWithDot field s).

(** [stored] is [given] with its [field] set to [field]: every other
    property is the one of [given]. *)
Definition stampedWith (field : string) (stored given : Obj) : Prop :=
  own stored !! "field" = Some (JString field)
  /\ forall name : string, name <> "field" -> own stored !! name = own given !! name.

End ValueTree.

Notation "'let*' x ':=' m 'in' k" := (bind m (fun x => k))
  (at level 10, x name, m at level 100, k at level 200).
Notation "m ';;' k" := (bind m (fun _ => k))
  (at level 100, k at level 200, right associativity).

(** ** The rest of the module: create, parent *)

(** What [create] falls back on: [noop] of lodash as the callback and
    [Schema.validate] of [./Schema] as the validator. *)
Class Defaults {imports : Imports} : Type := {
  noop : FunRef;
  Schema_validate : Schema -> JSValue -> list Obj
}.

Section Rest.

Context {imports : Imports} {defaults : Defaults}.

(** The object handed to [create]: [None] is a key left out (or, for
    [errorList], passed as [null]); a [value] given as [undefined] takes the
    default like a [value] left out.  The schema has no default. *)
Record CreateOptions : Type := mkCreateOptions {
  opt_schema : Schema;
  opt_value : option JSValue;
  opt_onChange : option FunRef;
  opt_params : option (gmap string JSValue);
  opt_errorList : option (list Obj);
  opt_externalErrorList : option (list Obj);
  opt_validate : option (Schema -> JSValue -> list Obj)
}.

Definition create (options : CreateOptions) : M ValueRoot :=
  let schema := opt_schema options in
  let value :=
    match opt_value options with
    | None | Some JUndefined => JObject ∅
    | Some value => value
    end in
  let onChange := default noop (opt_onChange options) in
  let params := default ∅ (opt_params options) in
  let externalErrorList := default [] (opt_externalErrorList options) in
  let validate :=
    default (fun schema value => Schema_validate schema value)
            (opt_validate options) in
  let errorList :=
    match opt_errorList options with
    | None => validate schema value
    | Some errorList => errorList
    end in
  newValueRoot schema value onChange params errorList externalErrorList validate.

(** [this.parent]: [null] on a root; on a branch the root itself when the
    key path has one segment, else a new branch at the key path without its
    last segment ([keyPath.slice()] then [pop()]). *)
Definition parent (this : Value) : M (option Value) :=
  match this with
  | VRoot _ => ret None
  | VBranch _ r path =>
      if Nat.eqb (List.length path) 1 then ret (Some (VRoot r))
      else
        let keyPath := removelast path in
        let* branch := newValueBranch r keyPath in
        ret (Some branch)
  end.

(** [this.params]: a branch forwards the params of its root. *)
Definition paramsOf (this : Value) : gmap string JSValue := params (root this).

(** ** Sequences of calls *)

(** One call a user of the module makes on the value at hand, the result of
    which is the value at hand for the next call. *)
Inductive Edit : Type :=
  | DoSelect (key : Key)
  | DoUpdate (valueUpdate : JSValue) (suppressUpdate : bool)
  | DoUpdateParams (params' : gmap string JSValue) (suppressUpdate : bool)
  | DoUpdateError (error : ErrorArg) (suppressUpdate : bool)
  | DoAddError (error : Obj) (suppressUpdate : bool)
  | DoRemoveError (error : Obj) (suppressUpdate : bool)
  | DoSetSchema (schema' : Schema).

Definition applyEdit (edit : Edit) (this : Value) : M Value :=
  match edit with
  | DoSelect key => select this key
  | DoUpdate valueUpdate b => update this valueUpdate b
  | DoUpdateParams params' b => updateParams this params' b
  | DoUpdateError error b => updateError this error b
  | DoAddError error b => addError this error b
  | DoRemoveError error b => removeError this error b
  | DoSetSchema schema' =>
      let* nextRoot := setSchema (root this) schema' in
      ret (VRoot nextRoot)
  end.

Fixpoint runEdits (edits : list Edit) (this : Value) : M Value :=
  match edits with
  | [] => ret this
  | edit :: rest =>
      let* next := applyEdit edit this in
      runEdits rest next
  end.

(** ** Vocabulary of the further statements *)

(** The validation errors of the root are those of its validator on its
    schema and document. *)
Definition validated (r : ValueRoot) : Prop :=
  _errorList r = validate r (schema r) (value r).

(** A branch has a key path of at least one segment. *)
Definition wellFormed (this : Value) : Prop :=
  match this with
  | VRoot _ => True
  | VBranch _ _ path => path <> []
  end.

(** The external error list holds objects the allocator has handed out, and
    no object twice. *)
Definition distinctExternal (s : State) (r : ValueRoot) : Prop :=
  NoDup (map oid (_externalErrorList r))
  /\ Forall (fun entry => oid entry < nextOid s) (_externalErrorList r).

(** The [field] of the object has a [slice] method: it is a string or an
    array. *)
Definition sliceable (error : Obj) : Prop :=
  match getProp error "field" with
  | JString _ | JArray _ => True
  | _ => False
  end.

(** The fields a mutation of the external errors must leave alone. *)
Definition sameDocument (r r' : ValueRoot) : Prop :=
  value r' = value r
  /\ schema r' = schema r
  /\ params r' = params r
  /\ _errorList r' = _errorList r
  /\ onChange r' = onChange r
  /\ validate r' = validate r.

End Rest.

(** ** A sample form *)

Module Sample.

(** A schema that lists the keys a document must have, and an updater that
    sets one key of an object. *)
#[export] Instance imports : Imports := {|
  Schema := list string;
  update_at doc path newValue _ :=
    match path, doc with
    | [SKey key], JObject members => JObject (<[key := newValue]> members)
    | _, _ => doc
    end
|}.

(** One error record per required key the document lacks. *)
Fixpoint required (id : Oid) (keys : list string) (document : JSValue)
  : list Obj :=
  match keys with
  | [] => []
  | key :: rest =>
      match document with
      | JObject members =>
          match members !! key with
          | Some _ => required id rest document
          | None =>
              mkObj id {[ "field" := JString ("data." +:+ key);
                          "message" := JString "is required" ]}
              :: required (S id) rest document
          end
      | _ => []
      end
  end.

Definition taken : Obj :=
  mkObj 2 {[ "field" := JString "data.a"; "message" := JString "taken" ]}.

Definition late : Obj :=
  mkObj 3 {[ "field" := JString "data.a.b"; "message" := JString "late" ]}.

(** A second object with the very properties of [taken]. *)
Definition takenCopy : Obj := mkObj 4 (own taken).

(** An object that is no error record: it has no [field]. *)
Definition fieldless : Obj := mkObj 6 {[ "message" := JString "lost" ]}.

Definition root0 : ValueRoot :=
  mkValueRoot 1 ["a"] (JObject {[ "a" := JNumber 1 ]}) 7 ∅
              [] [taken; late; takenCopy] (required 100).

Definition at_a : Value := VBranch 5 root0 [SKey "a"].

(** The module at rest: nothing suppressed, no callback invoked yet. *)
Definition s0 : State := mkState false 10 [].

(** A [suppressUpdate] scope that opens and closes an inner scope, then
    reads the flag and updates the form without asking for silence. *)
Definition nested : M bool :=
  suppressUpdate
    (suppressUpdate (ret tt);;
     let* flag := getSuppressUpdateContextual in
     update at_a (JNumber 2) false;;
     ret flag).

End Sample.

(** ** A sample session *)

Module Session.

Import Sample.

#[export] Instance defaults : Defaults := {|
  noop := 0;
  Schema_validate := required 100
|}.

(** [create({schema, value: {a: 1}})] with a schema that also wants [b]. *)
Definition fresh : CreateOptions :=
  mkCreateOptions ["a"; "b"] (Some (JObject {[ "a" := JNumber 1 ]}))
                  None None None None None.

(** The same form, created with a list of errors of the caller's own. *)
Definition seeded : CreateOptions :=
  mkCreateOptions ["a"; "b"] (Some (JObject {[ "a" := JNumber 1 ]}))
                  None None (Some [taken]) None None.

(** A session: narrow to [a], edit it, attach and detach errors, relax the
    schema, set a param. *)
Definition session : list Edit :=
  [ DoSelect (KeyString "a");
    DoUpdate (JNumber 2) false;
    DoAddError fieldless true;
    DoUpdateError (ErrorArray [taken; late]) false;
    DoRemoveError taken false;
    DoSetSchema ["a"];
    DoUpdateParams {[ "step" := JNumber 1 ]} false ].

(** The branch below [at_a] at which [late] sits. *)
Definition at_a_b : Value := VBranch 8 root0 [SKey "a"; SKey "b"].

(** A root whose external error list holds an object without [field]. *)
Definition rootLost : ValueRoot :=
  mkValueRoot 1 ["a"] (JObject {[ "a" := JNumber 1 ]}) 7 ∅
              [] [taken; fieldless] (required 100).

(** A record next to [a], at [data.ab], and one whose [field] is an array. *)
Definition sibling : Obj :=
  mkObj 12 {[ "field" := JString "data.ab"; "message" := JString "near" ]}.

Definition listed : Obj :=
  mkObj 13 {[ "field" := JArray [JString "data"; JString "a"] ]}.

(** A root with records at, below and beside [a]. *)
Definition rootMixed : ValueRoot :=
  mkValueRoot 1 ["a"] (JObject {[ "a" := JNumber 1 ]}) 7 ∅
              [sibling; late] [taken; sibling; late; listed] (required 100).

End Session.

Section Properties.

Context {imports : Imports}.

(** ** Run equations: what each method computes, state by state *)

Lemma advance_0_nil (s : State) : advance 0 [] s = s.
Proof.
  destruct s as [flag next log]. unfold advance. simpl.
  by rewrite Nat.add_0_r, app_nil_r.
Qed.

Lemma advance_advance (n m : nat) (log log' : list Call) (s : State) :
  advance m log' (advance n log s) = advance (n + m) (log ++ log') s.
Proof.
  unfold advance. simpl. by rewrite Nat.add_assoc, app_assoc.
Qed.

Lemma alloc_run (s : State) :
  alloc s = (Return (nextOid s), advance 1 [] s).
Proof.
  unfold alloc, advance. by rewrite Nat.add_1_r, app_nil_r.
Qed.

Lemma bind_run {A B : Type} (m : M A) (k : A -> M B) (s s' : State) (a : A) :
  m s = (Return a, s') -> bind m k s = k a s'.
Proof. intros Hm. unfold bind. by rewrite Hm. Qed.

Lemma select_array_run (this : Value) (path : KeyPath) (s : State) :
  select this (KeyArray path) s
  = match path with
    | [] => (Return this, s)
    | _ => (Return (VBranch (nextOid s) (root this) (keyPath this ++ path)),
            advance 1 [] s)
    end.
Proof.
  unfold select. destruct path as [|seg path]; simpl; [done|].
  unfold newValueBranch. by rewrite (bind_run _ _ _ _ _ (alloc_run s)).
Qed.

Lemma reselect_run (nextRoot : ValueRoot) (path : KeyPath) (s : State) :
  select (VRoot nextRoot) (KeyArray path) s
  = (Return (reselected nextRoot path (nextOid s)), advance (branchCost path) [] s).
Proof.
  rewrite select_array_run. destruct path; simpl; [|done].
  by rewrite advance_0_nil.
Qed.

Lemma notify_run (this : Value) (nextRoot : ValueRoot) (b : bool) (s : State) :
  notify this nextRoot b s
  = (Return tt,
     advance 0 (notification this nextRoot b (suppressUpdateContextual s)) s).
Proof.
  unfold notify, bind, getSuppressUpdateContextual, notification, when.
  destruct (negb b && negb (suppressUpdateContextual s)); simpl.
  - unfold invoke, advance. by rewrite Nat.add_0_r.
  - by rewrite advance_0_nil.
Qed.

Lemma createRoot_run (this : Value) (u : RootUpdate) (s : State) :
  createRoot this u s
  = (Return (mkValueRoot (nextOid s)
       (default (schema (root this)) (upd_schema u))
       (default (value (root this)) (upd_value u))
       (default (onChange (root this)) (upd_onChange u))
       (default (params (root this)) (upd_params u))
       (default (_errorList (root this)) (upd_errorList u))
       (default (_externalErrorList (root this)) (upd_externalErrorList u))
       (default (validate (root this)) (upd_validate u))),
     advance 1 [] s).
Proof.
  unfold createRoot, newValueRoot. by rewrite (bind_run _ _ _ _ _ (alloc_run s)).
Qed.

(** The tail shared by the mutating methods: build the next root, notify,
    select the same path on the next root. *)
Lemma commit_run (this : Value) (u : RootUpdate) (b : bool) (s : State) :
  (let* nextRoot := createRoot this u in
   notify this nextRoot b;;
   select (VRoot nextRoot) (KeyArray (keyPath this))) s
  = let nextRoot := mkValueRoot (nextOid s)
       (default (schema (root this)) (upd_schema u))
       (default (value (root this)) (upd_value u))
       (default (onChange (root this)) (upd_onChange u))
       (default (params (root this)) (upd_params u))
       (default (_errorList (root this)) (upd_errorList u))
       (default (_externalErrorList (root this)) (upd_externalErrorList u))
       (default (validate (root this)) (upd_validate u)) in
    (Return (reselected nextRoot (keyPath this) (nextOid s + 1)),
     advance (1 + branchCost (keyPath this))
             (notification this nextRoot b (suppressUpdateContextual s)) s).
Proof.
  simpl. rewrite (bind_run _ _ _ _ _ (createRoot_run this u s)).
  rewrite (bind_run _ _ _ _ _ (notify_run this _ b _)).
  rewrite reselect_run, !advance_advance. simpl. by rewrite app_nil_r.
Qed.

Lemma stamp_run (field : string) (error : Obj) (s : State) :
  stamp field error s
  = (Return (mkObj (nextOid s) (spreadWithField error field)), advance 1 [] s).
Proof. unfold stamp. by rewrite (bind_run _ _ _ _ _ (alloc_run s)). Qed.

Lemma mapM_stamp_run (field : string) (errors : list Obj) (s : State) :
  mapM (stamp field) errors s
  = (Return (stampedFrom field (nextOid s) errors), advance (length errors) [] s).
Proof.
  revert s. induction errors as [|error rest IH]; intros s; simpl.
  - unfold ret. by rewrite advance_0_nil.
  - rewrite (bind_run _ _ _ _ _ (stamp_run field error s)).
    rewrite (bind_run _ _ _ _ _ (IH _)). unfold ret.
    rewrite advance_advance. simpl. by rewrite Nat.add_1_r.
Qed.

Lemma update_run (this : Value) (valueUpdate : JSValue) (b : bool) (s : State) :
  update this valueUpdate b s
  = let value' := updatedDocument this valueUpdate in
    let nextRoot :=
      mkValueRoot (nextOid s) (schema (root this)) value' (onChange (root this))
        (params (root this))
        (validate (root this) (schema (root this)) value')
        (_externalErrorList (root this)) (validate (root this)) in
    (Return (reselected nextRoot (keyPath this) (nextOid s + 1)),
     advance (1 + branchCost (keyPath this))
             (notification this nextRoot b (suppressUpdateContextual s)) s).
Proof.
  unfold update. rewrite commit_run. unfold updatedDocument.
  by destruct (keyPath this).
Qed.

Lemma updateParams_run (this : Value) (params' : gmap string JSValue) (b : bool)
    (s : State) :
  updateParams this params' b s
  = let nextRoot :=
      mkValueRoot (nextOid s) (schema (root this)) (value (root this))
        (onChange (root this)) (params' ∪ params (root this))
        (_errorList (root this)) (_externalErrorList (root this))
        (validate (root this)) in
    (Return (reselected nextRoot (keyPath this) (nextOid s + 1)),
     advance (1 + branchCost (keyPath this))
             (notification this nextRoot b (suppressUpdateContextual s)) s).
Proof. unfold updateParams. by rewrite commit_run. Qed.

Lemma updateError_run (this : Value) (error : ErrorArg) (b : bool) (s : State) :
  updateError this error b s
  = let n := length (suppliedErrors error) in
    let nextRoot :=
      withExternalErrorList (nextOid s + n) (root this)
        (stampedFrom (dataField (keyPath this)) (nextOid s) (suppliedErrors error)) in
    (Return (reselected nextRoot (keyPath this) (nextOid s + n + 1)),
     advance (n + (1 + branchCost (keyPath this)))
             (notification this nextRoot b (suppressUpdateContextual s)) s).
Proof.
  unfold updateError. destruct error as [error|errors]; simpl.
  - erewrite bind_run.
    2:{ by rewrite (bind_run _ _ _ _ _ (stamp_run _ _ s)). }
    rewrite commit_run. cbv zeta. rewrite advance_advance. done.
  - rewrite (bind_run _ _ _ _ _ (mapM_stamp_run _ _ s)).
    rewrite commit_run. cbv zeta. rewrite advance_advance. done.
Qed.

Lemma addError_run (this : Value) (error : Obj) (b : bool) (s : State) :
  addError this error b s
  = let error' := mkObj (nextOid s) (spreadWithField error (dataField (keyPath this))) in
    let nextRoot :=
      withExternalErrorList (nextOid s + 1) (root this)
        (_externalErrorList (root this) ++ [error']) in
    (Return (reselected nextRoot (keyPath this) (nextOid s + 1 + 1)),
     advance (1 + (1 + branchCost (keyPath this)))
             (notification this nextRoot b (suppressUpdateContextual s)) s).
Proof.
  unfold addError. rewrite (bind_run _ _ _ _ _ (stamp_run _ _ s)).
  rewrite commit_run. cbv zeta. rewrite advance_advance. done.
Qed.

Lemma removeError_run (this : Value) (error : Obj) (b : bool) (s : State) :
  removeError this error b s
  = let idx := indexOf (_externalErrorList (root this)) error in
    if (idx >? -1)%Z then
      let nextRoot :=
        withExternalErrorList (nextOid s) (root this)
          (splice1 (_externalErrorList (root this)) idx) in
      (Return (reselected nextRoot (keyPath this) (nextOid s + 1)),
       advance (1 + branchCost (keyPath this))
               (notification this nextRoot b (suppressUpdateContextual s)) s)
    else (Return this, s).
Proof.
  unfold removeError. simpl.
  destruct (indexOf (_externalErrorList (root this)) error >? -1)%Z; [|done].
  by rewrite commit_run.
Qed.

Lemma setSchema_run (this : ValueRoot) (schema' : Schema) (s : State) :
  setSchema this schema' s
  = (Return (mkValueRoot (nextOid s) schema' (value this) (onChange this)
               (params this) (validate this schema' (value this))
               (_externalErrorList this) (validate this)),
     advance 1 [] s).
Proof. unfold setSchema. by rewrite createRoot_run. Qed.

Lemma root_reselected (nextRoot : ValueRoot) (path : KeyPath) (id : Oid) :
  root (reselected nextRoot path id) = nextRoot.
Proof. by destruct path. Qed.

Lemma keyPath_reselected (nextRoot : ValueRoot) (path : KeyPath) (id : Oid) :
  keyPath (reselected nextRoot path id) = path.
Proof. by destruct path. Qed.

Lemma notification_unsuppressed (this : Value) (nextRoot : ValueRoot) :
  notification this nextRoot false false
  = [mkCall (onChange (root this)) nextRoot (keyPath this)].
Proof. done. Qed.

Lemma notification_suppressed (this : Value) (nextRoot : ValueRoot)
    (b contextual : bool) :
  b = true \/ contextual = true -> notification this nextRoot b contextual = [].
Proof.
  intros [-> | ->]; unfold notification; [done|]. by rewrite andb_false_r.
Qed.

(** ** select *)

(** C8: selection composes by concatenation of key paths and keeps the root,
    and selecting the empty key path returns the receiver itself, allocating
    nothing. *)
Theorem select_composes (this : Value) (p q : KeyPath) (s : State) :
  (exists (v1 v2 : Value) (s1 : State),
      select this (KeyArray p) s = (Return v1, s1)
      /\ result (select v1 (KeyArray q) s1) = Return v2
      /\ keyPath v2 = keyPath this ++ p ++ q
      /\ root v2 = root this)
  /\ select this (KeyArray []) s = (Return this, s).
Proof.
  split; [|by rewrite select_array_run].
  rewrite (select_array_run this p s).
  destruct p as [|a p], q as [|c q]; eexists _, _, _;
    (split; [reflexivity|]); rewrite select_array_run; simpl;
    rewrite ?app_nil_r, <- ?app_assoc; done.
Qed.

(** ** update *)

(** C3: [update] returns a value at the same key path on a new root; the
    document of that root is the new value itself at the empty path and the
    result of the document updater otherwise, its validation errors are
    those of [validate] on the schema and the new document, and its external
    errors, schema, params, [onChange] and [validate] are those of the old
    root. *)
Theorem update_new_root (this : Value) (newValue : JSValue) (b : bool) (s : State) :
  exists v' : Value,
    result (update this newValue b s) = Return v'
    /\ keyPath v' = keyPath this
    /\ root_oid (root v') = nextOid s
    /\ value (root v')
       = match keyPath this with
         | [] => newValue
         | _ => update_at (value (root this)) (keyPath this) newValue
                          (schema (root this))
         end
    /\ _errorList (root v')
       = validate (root this) (schema (root this)) (value (root v'))
    /\ _externalErrorList (root v') = _externalErrorList (root this)
    /\ schema (root v') = schema (root this)
    /\ params (root v') = params (root this)
    /\ onChange (root v') = onChange (root this)
    /\ validate (root v') = validate (root this).
Proof.
  rewrite update_run. cbv zeta. eexists. split; [done|].
  rewrite keyPath_reselected, root_reselected. simpl. by repeat split.
Qed.

(** ** updateError with no errors at all *)

(** C10: [updateError] on the empty array returns normally, with a root that
    has no external error and the validation errors, document, schema and
    params of the old root. *)
Theorem updateError_empty_clears (this : Value) (b : bool) (s : State) :
  exists v' : Value,
    result (updateError this (ErrorArray []) b s) = Return v'
    /\ _externalErrorList (root v') = []
    /\ _errorList (root v') = _errorList (root this)
    /\ value (root v') = value (root this)
    /\ schema (root v') = schema (root this)
    /\ params (root v') = params (root this).
Proof.
  rewrite updateError_run. cbv zeta. eexists. split; [done|].
  rewrite root_reselected. by repeat split.
Qed.

(** ** indexOf and splice *)

Lemma indexOfFrom_lower (k : Z) (l : list Obj) (e : Obj) :
  indexOfFrom k l e = (-1)%Z \/ (k <= indexOfFrom k l e)%Z.
Proof.
  revert k. induction l as [|x l IH]; intros k; simpl; [by left|].
  destruct (sameObject x e); [right; lia|].
  destruct (IH (k + 1)%Z) as [H | H]; [by left | right; lia].
Qed.

Lemma indexOfFrom_absent (k : Z) (l : list Obj) (e : Obj) :
  Forall (fun entry => oid entry <> oid e) l -> indexOfFrom k l e = (-1)%Z.
Proof.
  intros Hl. revert k. induction Hl as [|x l Hx _ IH]; intros k; simpl; [done|].
  unfold sameObject. destruct (Nat.eqb_spec (oid x) (oid e)); [done | apply IH].
Qed.

Lemma indexOfFrom_first (k : Z) (before after : list Obj) (found e : Obj) :
  Forall (fun entry => oid entry <> oid e) before ->
  oid found = oid e ->
  indexOfFrom k (before ++ found :: after) e = (k + Z.of_nat (length before))%Z.
Proof.
  intros Hbefore Hfound. revert k.
  induction Hbefore as [|x l Hx _ IH]; intros k; simpl.
  - unfold sameObject. rewrite Hfound, Nat.eqb_refl. lia.
  - unfold sameObject. destruct (Nat.eqb_spec (oid x) (oid e)); [done|].
    rewrite IH. lia.
Qed.

Lemma indexOfFrom_heldIn (k : Z) (l : list Obj) (e : Obj) :
  heldIn e l -> (k <= indexOfFrom k l e)%Z.
Proof.
  intros Hl. revert k. induction Hl as [x l Hx | x l _ IH]; intros k; simpl.
  - unfold sameObject. rewrite Hx, Nat.eqb_refl. lia.
  - destruct (sameObject x e); [lia|]. specialize (IH (k + 1)%Z). lia.
Qed.

Lemma indexOf_heldIn (l : list Obj) (e : Obj) :
  heldIn e l -> (indexOf l e >? -1)%Z = true.
Proof.
  intros Hl. pose proof (indexOfFrom_heldIn 0 l e Hl). unfold indexOf. lia.
Qed.

Lemma splice1_middle (before after : list Obj) (found : Obj) :
  splice1 (before ++ found :: after) (Z.of_nat (length before)) = before ++ after.
Proof.
  unfold splice1. rewrite Nat2Z.id, take_app_length.
  replace (S (length before)) with (length before + 1) by lia.
  by rewrite drop_app_add.
Qed.

(** ** Notifications *)

Lemma commit_notifiedOnce (this : Value) (s : State) (nextRoot : ValueRoot)
    (id : Oid) (n : nat) :
  suppressUpdateContextual s = false ->
  nextOid s <= root_oid nextRoot < nextOid s + n ->
  notifiedOnce this s
    (Return (reselected nextRoot (keyPath this) id),
     advance n (notification this nextRoot false (suppressUpdateContextual s)) s).
Proof.
  intros Hflag Hnew. unfold notifiedOnce. eexists. split; [done|].
  rewrite root_reselected, Hflag. by simpl.
Qed.

(** C1: when neither the argument nor the flag suppresses it, each of
    [update], [updateParams], [updateError], [addError] and a [removeError]
    of a record held in the external error list invokes the [onChange] of
    the root exactly once, with the new root and the key path of the
    receiver; [setSchema] invokes no callback at all. *)
Theorem onChange_once_per_mutation (this : Value) (b : bool) (s : State) :
  notSuppressed b s ->
  (forall valueUpdate, notifiedOnce this s (update this valueUpdate b s))
  /\ (forall params', notifiedOnce this s (updateParams this params' b s))
  /\ (forall error, notifiedOnce this s (updateError this error b s))
  /\ (forall error, notifiedOnce this s (addError this error b s))
  /\ (forall error, heldIn error (_externalErrorList (root this)) ->
                    notifiedOnce this s (removeError this error b s))
  /\ (forall r schema', calls (final (setSchema r schema' s)) = calls s).
Proof.
  intros [-> Hflag]. split_and!.
  - intros valueUpdate. rewrite update_run. cbv zeta.
    apply commit_notifiedOnce; simpl; [done | lia].
  - intros params'. rewrite updateParams_run. cbv zeta.
    apply commit_notifiedOnce; simpl; [done | lia].
  - intros error. rewrite updateError_run. cbv zeta.
    apply commit_notifiedOnce; simpl; [done | lia].
  - intros error. rewrite addError_run. cbv zeta.
    apply commit_notifiedOnce; simpl; [done | lia].
  - intros error Hheld. rewrite removeError_run. cbv zeta.
    rewrite (indexOf_heldIn _ _ Hheld).
    apply commit_notifiedOnce; simpl; [done | lia].
  - intros r schema'. rewrite setSchema_run. simpl. by rewrite app_nil_r.
Qed.

(** ** removeError *)

(** C4: [removeError] looks the record up by reference.  When an entry of
    the external error list is the record itself, the first such entry is
    dropped and the others keep their order, on a new root; when no entry is
    the record itself, whatever their properties, the receiver comes back
    and nothing is allocated or notified. *)
Theorem removeError_by_reference (this : Value) (error : Obj) (b : bool)
    (s : State) :
  (forall (before after : list Obj) (found : Obj),
      _externalErrorList (root this) = before ++ found :: after ->
      Forall (fun entry => oid entry <> oid error) before ->
      oid found = oid error ->
      exists v' : Value,
        result (removeError this error b s) = Return v'
        /\ _externalErrorList (root v') = before ++ after
        /\ root_oid (root v') = nextOid s
        /\ keyPath v' = keyPath this)
  /\ (Forall (fun entry => oid entry <> oid error)
             (_externalErrorList (root this)) ->
      removeError this error b s = (Return this, s)).
Proof.
  rewrite removeError_run. cbv zeta. unfold indexOf. split.
  - intros before after found Hlist Hbefore Hfound.
    rewrite Hlist, (indexOfFrom_first _ _ _ _ _ Hbefore Hfound).
    assert ((0 + Z.of_nat (length before) >? -1)%Z = true) as ->
      by (apply Z.gtb_gt; lia).
    eexists. split; [done|].
    rewrite root_reselected, keyPath_reselected. simpl.
    by rewrite Z.add_0_l, splice1_middle.
  - intros Habsent. by rewrite (indexOfFrom_absent _ _ _ Habsent).
Qed.

(** ** Suppression *)

(** C9: for each mutating method, two runs from states with the same
    allocator give the same returned value, whatever the suppression
    argument, the flag and the trace of either run; a suppressed run adds
    nothing to the trace. *)
Theorem suppression_only_silences (this : Value) (next : Oid)
    (flag1 flag2 : bool) (log1 log2 : list Call) (b1 b2 : bool) :
  let s1 := mkState flag1 next log1 in
  let s2 := mkState flag2 next log2 in
  (forall valueUpdate,
      sameProduct (update this valueUpdate) b1 b2 s1 s2)
  /\ (forall params', sameProduct (updateParams this params') b1 b2 s1 s2)
  /\ (forall error, sameProduct (updateError this error) b1 b2 s1 s2)
  /\ (forall error, sameProduct (addError this error) b1 b2 s1 s2)
  /\ (forall error, sameProduct (removeError this error) b1 b2 s1 s2).
Proof.
  intros s1 s2. unfold sameProduct. repeat split; try intros Hs.
  all: rewrite ?update_run, ?updateParams_run, ?updateError_run, ?addError_run,
         ?removeError_run; cbv zeta;
       repeat match goal with
              | |- context [(?i >? -1)%Z] => destruct (i >? -1)%Z
              end; try done.
  all: simpl; rewrite notification_suppressed by done; by rewrite app_nil_r.
Qed.

(** ** Field strings *)

Lemma append_assoc (a b c : string) : (a +:+ b) +:+ c = a +:+ b +:+ c.
Proof.
  induction a as [|x a IH]; [done|]. exact (f_equal (String x) IH).
Qed.

Lemma append_empty_r (a : string) : a +:+ EmptyString = a.
Proof.
  induction a as [|x a IH]; [done|]. exact (f_equal (String x) IH).
Qed.

Lemma join_fold (acc : string) (path : KeyPath) :
  fold_left (fun R next => (R +:+ ".") +:+ next) (map toString path) acc
  = acc +:+ dotJoined path.
Proof.
  revert acc. induction path as [|seg rest IH]; intros acc.
  - simpl. by rewrite append_empty_r.
  - cbn [map fold_left]. rewrite IH.
    change (dotJoined (seg :: rest))
      with ("." +:+ toString seg +:+ dotJoined rest).
    by rewrite !append_assoc.
Qed.

Lemma dataField_fieldOfPath (path : KeyPath) : dataField path = fieldOfPath path.
Proof. unfold dataField, fieldOfPath, join. apply join_fold. Qed.

Lemma strictEqString_fieldIs (field : string) (error : Obj) :
  strictEqString (getProp error "field") field = true <-> fieldIs field error.
Proof.
  unfold getProp, fieldIs, strictEqString.
  destruct (own error !! "field") as [[| | | |s| |]|]; simpl; try by split.
  rewrite String.eqb_eq. split; [by intros -> | by intros [= ->]].
Qed.

Lemma filter_Selects (field : string) (l : list Obj) :
  Selects (fieldIs field)
    l (List.filter (fun error => strictEqString (getProp error "field") field) l).
Proof.
  induction l as [|x l IH]; simpl; [constructor|].
  destruct (strictEqString (getProp x "field") field) eqn:Hx.
  - apply Selects_keep; [by apply strictEqString_fieldIs | done].
  - apply Selects_skip; [|done].
    intros Hfield%strictEqString_fieldIs. congruence.
Qed.

(** ** errorList *)

(** C6: [errorList] is the validation errors whose [field] is exactly the
    field string of the key path, followed by the external errors whose
    [field] is exactly that string, each part in the order of its source. *)
Theorem errorList_exact (this : Value) :
  exists validation external : list Obj,
    errorList this = validation ++ external
    /\ Selects (fieldIs (fieldOfPath (keyPath this)))
               (_errorList (root this)) validation
    /\ Selects (fieldIs (fieldOfPath (keyPath this)))
               (_externalErrorList (root this)) external.
Proof.
  unfold errorList, filterErrorListByKeyPath. rewrite dataField_fieldOfPath.
  eexists _, _. split; [reflexivity|]. split; apply filter_Selects.
Qed.

(** ** Prefix matching *)

Lemma startsWithDot_empty (s : string) :
  startsWithDot EmptyString s <-> exists rest : string, s = String "."%char rest.
Proof. done. Qed.

Lemma startsWithDot_cons (a c : ascii) (field s : string) :
  startsWithDot (String a field) (String c s) <-> c = a /\ startsWithDot field s.
Proof.
  unfold startsWithDot. split.
  - intros [rest Hrest].
    change (String c s = String a (field +:+ "." +:+ rest)) in Hrest.
    injection Hrest as -> ->. eauto.
  - intros [-> [rest ->]]. by exists rest.
Qed.

Lemma slice_dot_spec (field s : string) :
  String.eqb (substring 0 (String.length field) s) field
  && match String.get (String.length field) s with
     | Some c => Ascii.eqb c "."%char
     | None => false
     end = true
  <-> startsWithDot field s.
Proof.
  revert s. induction field as [|a field IH]; intros s.
  - rewrite startsWithDot_empty. destruct s as [|c s]; simpl.
    + split; [done | by intros [rest ?]].
    + rewrite Ascii.eqb_eq. split; [intros ->; eauto | by intros [rest [= -> _]]].
  - destruct s as [|c s].
    + simpl. split; [done|]. intros [rest Hrest]. discriminate Hrest.
    + rewrite startsWithDot_cons, <- IH. simpl.
      destruct (Ascii.eqb_spec c a) as [-> | Hca]; simpl.
      * split; [done | by intros [_ ?]].
      * split; [done | by intros [? _]].
Qed.

Lemma prefixMatches_string (field s : string) (error : Obj) :
  own error !! "field" = Some (JString s) ->
  exists b : bool,
    prefixMatches field error = Return b
    /\ (b = true <-> s = field \/ startsWithDot field s).
Proof.
  intros Hs. unfold prefixMatches, getProp. rewrite Hs. simpl.
  destruct (String.eqb_spec s field) as [-> | Hne].
  - exists true. by split; [|split; [left|]].
  - eexists. split; [reflexivity|]. rewrite slice_dot_spec. split; [by right|].
    by intros [? | ?].
Qed.

Lemma filterThrowing_Selects (field : string) (l : list Obj) :
  Forall ErrorRecord l ->
  exists kept : list Obj,
    filterThrowing (prefixMatches field) l = Return kept
    /\ Selects (fieldUnder field) l kept.
Proof.
  induction 1 as [|x l [s Hs] _ [kept [Hkept Hsel]]]; simpl.
  - exists []. split; [done | constructor].
  - destruct (prefixMatches_string field s x Hs) as [b [-> Hb]].
    rewrite Hkept. destruct b.
    + exists (x :: kept). split; [done|]. apply Selects_keep; [|done].
      exists s. split; [done | by apply Hb].
    + exists kept. split; [done|]. apply Selects_skip; [|done].
      intros [s' [Hs' Hunder]]. rewrite Hs in Hs'. injection Hs' as <-.
      apply Hb in Hunder. done.
Qed.

Lemma sliceable_cases (error : Obj) :
  sliceable error ->
  (exists s : string, own error !! "field" = Some (JString s))
  \/ (exists items : list JSValue, own error !! "field" = Some (JArray items)).
Proof.
  unfold sliceable, getProp.
  destruct (own error !! "field") as [[| | | |s|items|]|]; simpl; try done.
  - intros _. left. by exists s.
  - intros _. right. by exists items.
Qed.

Lemma prefixMatches_array (field : string) (error : Obj) (items : list JSValue) :
  own error !! "field" = Some (JArray items) ->
  prefixMatches field error = Return false /\ ~ fieldUnder field error.
Proof.
  intros Hitems. split.
  - unfold prefixMatches, getProp. by rewrite !Hitems.
  - intros [s [Hs _]]. rewrite Hitems in Hs. discriminate Hs.
Qed.

Lemma filterThrowing_Selects_sliceable (field : string) (l : list Obj) :
  Forall sliceable l ->
  exists kept : list Obj,
    filterThrowing (prefixMatches field) l = Return kept
    /\ Selects (fieldUnder field) l kept.
Proof.
  induction 1 as [|x l Hx _ [kept [Hkept Hsel]]]; simpl.
  - exists []. split; [done | constructor].
  - destruct (sliceable_cases x Hx) as [[s Hs] | [items Hitems]].
    + destruct (prefixMatches_string field s x Hs) as [b [-> Hb]].
      rewrite Hkept. destruct b.
      * exists (x :: kept). split; [done|]. apply Selects_keep; [|done].
        exists s. split; [done | by apply Hb].
      * exists kept. split; [done|]. apply Selects_skip; [|done].
        intros [s' [Hs' Hunder]]. rewrite Hs in Hs'. injection Hs' as <-.
        apply Hb in Hunder. done.
    + destruct (prefixMatches_array field x items Hitems) as [-> Hnot].
      rewrite Hkept. exists kept. split; [done|]. by apply Selects_skip.
Qed.

(** ** completeErrorList *)

(** C7: at the empty key path [completeErrorList] is both error lists in
    full, validation errors first, whatever the lists hold; at any other key
    path, on lists whose records have a string or an array as [field], it
    returns normally with exactly the records whose [field] is the field
    string of the path or starts with that string and a dot, in the order of
    the lists; a record at [data.ab] is not selected at the key path [a]. *)
Theorem completeErrorList_prefix (this : Value) :
  (keyPath this = [] ->
   completeErrorList this
   = Return (_errorList (root this) ++ _externalErrorList (root this)))
  /\ (keyPath this <> [] ->
      Forall sliceable (_errorList (root this)) ->
      Forall sliceable (_externalErrorList (root this)) ->
      exists validation external : list Obj,
        completeErrorList this = Return (validation ++ external)
        /\ Selects (fieldUnder (fieldOfPath (keyPath this)))
                   (_errorList (root this)) validation
        /\ Selects (fieldUnder (fieldOfPath (keyPath this)))
                   (_externalErrorList (root this)) external)
  /\ (forall error : Obj,
        fieldIs "data.ab" error ->
        filterErrorListByKeyPathPrefix [error] [SKey "a"] = Return []).
Proof.
  unfold completeErrorList, filterErrorListByKeyPathPrefix. split_and!.
  - by intros ->.
  - intros Hpath Hvalidation Hexternal.
    destruct (keyPath this) as [|seg path] eqn:Hkey; [done|]. simpl.
    rewrite dataField_fieldOfPath.
    destruct (filterThrowing_Selects_sliceable (fieldOfPath (seg :: path)) _
                Hvalidation) as [validation [-> Hsel1]].
    destruct (filterThrowing_Selects_sliceable (fieldOfPath (seg :: path)) _
                Hexternal) as [external [-> Hsel2]].
    by exists validation, external.
  - intros error Hfield. unfold filterThrowing, prefixMatches, getProp.
    unfold fieldIs in Hfield. rewrite !Hfield. reflexivity.
Qed.

(** A record without [field] makes the prefix filter raise: the hypothesis
    on the records above is needed. *)
Lemma prefixMatches_needs_slice (field : string) (error : Obj) :
  own error !! "field" = None -> prefixMatches field error = Throw TypeError.
Proof. intros Hnone. unfold prefixMatches, getProp. by rewrite !Hnone. Qed.

(** ** updateError *)

Lemma stampedFrom_own (field : string) (base : Oid) (errors : list Obj) :
  map own (stampedFrom field base errors)
  = map (fun error => spreadWithField error field) errors.
Proof.
  revert base. induction errors as [|error rest IH]; intros base; simpl;
    [done | by rewrite IH].
Qed.

Lemma stampedFrom_stampedWith (field : string) (base : Oid) (errors : list Obj) :
  Forall2 (stampedWith field) (stampedFrom field base errors) errors.
Proof.
  revert base. induction errors as [|error rest IH]; intros base; simpl;
    constructor; [|apply IH].
  unfold stampedWith, spreadWithField. simpl. split.
  - apply lookup_insert_eq.
  - intros name Hname. by apply lookup_insert_ne.
Qed.

(** C5: [updateError] returns a value whose root holds, as its whole
    external error list, one fresh record per supplied record, in the order
    supplied: a single record gives one entry, an array as many entries as it
    has.  Each entry has the field string of the key path of the receiver as
    its [field] and the other properties of the supplied record.  Calling
    [updateError] again with the same argument, on the returned value or on
    the receiver, gives an external error list with the same properties,
    entry by entry. *)
Theorem updateError_replaces (this : Value) (error : ErrorArg) (b : bool)
    (s : State) :
  exists v' : Value,
    result (updateError this error b s) = Return v'
    /\ keyPath v' = keyPath this
    /\ match error with
       | OneError given =>
           exists stored : Obj,
             _externalErrorList (root v') = [stored]
             /\ stampedWith (fieldOfPath (keyPath this)) stored given
       | ErrorArray given =>
           Forall2 (stampedWith (fieldOfPath (keyPath this)))
                   (_externalErrorList (root v')) given
       end
    /\ forall (b' : bool) (s' : State),
         exists v'' w'' : Value,
           result (updateError v' error b' s') = Return v''
           /\ result (updateError this error b' s') = Return w''
           /\ map own (_externalErrorList (root v''))
              = map own (_externalErrorList (root v'))
           /\ map own (_externalErrorList (root w''))
              = map own (_externalErrorList (root v')).
Proof.
  rewrite updateError_run. cbv zeta. eexists. split; [done|].
  rewrite keyPath_reselected, root_reselected, dataField_fieldOfPath.
  split_and!; [done | |].
  - destruct error as [given | given]; simpl.
    + eexists. split; [done|].
      pose proof (stampedFrom_stampedWith (fieldOfPath (keyPath this))
                    (nextOid s) [given]) as Hstamped.
      by inversion Hstamped.
    + apply stampedFrom_stampedWith.
  - intros b' s'. rewrite !updateError_run. cbv zeta. eexists _, _.
    split_and!; [done | done | |];
      rewrite ?keyPath_reselected, !root_reselected, ?dataField_fieldOfPath;
      simpl; by rewrite !stampedFrom_own.
Qed.

(** ** suppressUpdate *)

Lemma suppressUpdate_run {A : Type} (tx : M A) (s : State) :
  suppressUpdate tx s
  = let run := tx (mkState true (nextOid s) (calls s)) in
    (result run, mkState false (nextOid (final run)) (calls (final run))).
Proof.
  unfold suppressUpdate, bind, setSuppressUpdateContextual, tryFinally. simpl.
  by destruct (tx _) as [outcome s'].
Qed.

(** Whatever the callback does and however it exits, [suppressUpdate] leaves
    the flag cleared, not as it found it. *)
Lemma suppressUpdate_clears_flag {A : Type} (tx : M A) (s : State) :
  suppressUpdateContextual (final (suppressUpdate tx s)) = false.
Proof. by rewrite suppressUpdate_run. Qed.

End Properties.

(** * Further properties of the module *)

Section MoreProperties.

Context {imports : Imports} {defaults : Defaults}.

(** ** What one call keeps *)

Lemma wellFormed_reselected (nextRoot : ValueRoot) (path : KeyPath) (id : Oid) :
  wellFormed (reselected nextRoot path id).
Proof. by destruct path. Qed.

Lemma stampedFrom_oids (field : string) (base : Oid) (errors : list Obj) :
  map oid (stampedFrom field base errors) = seq base (length errors).
Proof.
  revert base. induction errors as [|error rest IH]; intros base; simpl;
    [done | by rewrite IH].
Qed.

Lemma splice1_sublist (l : list Obj) (idx : Z) : splice1 l idx `sublist_of` l.
Proof. unfold splice1. rewrite <- delete_take_drop. apply sublist_delete. Qed.

Lemma distinctExternal_same (s s' : State) (r r' : ValueRoot) :
  _externalErrorList r' = _externalErrorList r ->
  nextOid s <= nextOid s' ->
  distinctExternal s r -> distinctExternal s' r'.
Proof.
  unfold distinctExternal. intros -> Hle [Hnodup Hbound]. split; [done|].
  eapply Forall_impl; [exact Hbound|]. simpl. intros entry Hentry. lia.
Qed.

Lemma distinctExternal_sublist (s s' : State) (r r' : ValueRoot) :
  _externalErrorList r' `sublist_of` _externalErrorList r ->
  nextOid s <= nextOid s' ->
  distinctExternal s r -> distinctExternal s' r'.
Proof.
  unfold distinctExternal. intros Hsub Hle [Hnodup Hbound]. split.
  - eapply sublist_NoDup; [exact Hnodup|]. by apply fmap_sublist.
  - rewrite Forall_forall in Hbound. apply Forall_forall. intros entry Hentry.
    specialize (Hbound entry (elem_of_sublist _ _ _ Hentry Hsub)). lia.
Qed.

Lemma distinctExternal_stamped (s' : State) (r' : ValueRoot) (field : string)
    (base : Oid) (errors : list Obj) :
  _externalErrorList r' = stampedFrom field base errors ->
  base + length errors <= nextOid s' ->
  distinctExternal s' r'.
Proof.
  unfold distinctExternal. intros -> Hle. rewrite stampedFrom_oids. split.
  - apply NoDup_seq.
  - assert (Forall (fun id => id < nextOid s')
                   (oid <$> stampedFrom field base errors)) as Hbound.
    { change (oid <$> stampedFrom field base errors)
        with (map oid (stampedFrom field base errors)).
      rewrite stampedFrom_oids. apply Forall_seq. intros j Hj. lia. }
    by apply Forall_fmap in Hbound.
Qed.

Lemma distinctExternal_snoc (s s' : State) (r r' : ValueRoot) (stored : Obj) :
  _externalErrorList r' = _externalErrorList r ++ [stored] ->
  oid stored = nextOid s ->
  nextOid s < nextOid s' ->
  distinctExternal s r -> distinctExternal s' r'.
Proof.
  unfold distinctExternal. intros -> Hstored Hlt [Hnodup Hbound]. split.
  - rewrite map_app. apply NoDup_app. split_and!; [done | | apply NoDup_singleton].
    intros x Hx Hx'. change (map oid [stored]) with [oid stored] in Hx'.
    apply list_elem_of_singleton in Hx'. subst x.
    apply list_elem_of_fmap in Hx as [entry [Hoid Hentry]].
    rewrite Forall_forall in Hbound. specialize (Hbound entry Hentry). lia.
  - apply Forall_app. split.
    + eapply Forall_impl; [exact Hbound|]. simpl. intros entry Hentry. lia.
    + constructor; [lia | constructor].
Qed.

(** One call, whatever it is: it returns, keeps the flag, only allocates,
    adds nothing to the trace under the flag, and keeps each invariant. *)
Lemma applyEdit_step (edit : Edit) (this : Value) (s : State) :
  exists (v' : Value) (s' : State),
    applyEdit edit this s = (Return v', s')
    /\ suppressUpdateContextual s' = suppressUpdateContextual s
    /\ nextOid s <= nextOid s'
    /\ (suppressUpdateContextual s = true -> calls s' = calls s)
    /\ (validated (root this) -> validated (root v'))
    /\ (wellFormed this -> wellFormed v')
    /\ (distinctExternal s (root this) -> distinctExternal s' (root v')).
Proof.
  destruct edit as [key | valueUpdate b | params' b | error b | error b
                   | error b | schema']; simpl.
  - unfold select. destruct (Nat.eqb_spec (length (makeKeyPath key)) 0) as [Hlen | Hlen].
    + exists this, s. by split_and!.
    + unfold newValueBranch. rewrite (bind_run _ _ _ _ _ (alloc_run s)).
      eexists _, _. split; [reflexivity|]. simpl.
      split_and!; [done | lia | intros _; by rewrite app_nil_r | done | |].
      * intros _ Hnil. apply app_eq_nil in Hnil as [_ Hnil].
        by rewrite Hnil in Hlen.
      * by apply distinctExternal_same; simpl; [|lia].
  - rewrite update_run. cbv zeta. eexists _, _. split; [reflexivity|].
    rewrite root_reselected. simpl.
    split_and!; [done | lia | | done | |].
    + intros Hflag. rewrite Hflag, notification_suppressed by (by right).
      by rewrite app_nil_r.
    + intros _. apply wellFormed_reselected.
    + by apply distinctExternal_same; simpl; [|lia].
  - rewrite updateParams_run. cbv zeta. eexists _, _. split; [reflexivity|].
    rewrite root_reselected. simpl.
    split_and!; [done | lia | | done | |].
    + intros Hflag. rewrite Hflag, notification_suppressed by (by right).
      by rewrite app_nil_r.
    + intros _. apply wellFormed_reselected.
    + by apply distinctExternal_same; simpl; [|lia].
  - rewrite updateError_run. cbv zeta. eexists _, _. split; [reflexivity|].
    rewrite root_reselected. simpl.
    split_and!; [done | lia | | done | |].
    + intros Hflag. rewrite Hflag, notification_suppressed by (by right).
      by rewrite app_nil_r.
    + intros _. apply wellFormed_reselected.
    + intros _. eapply distinctExternal_stamped; simpl; [reflexivity | lia].
  - rewrite addError_run. cbv zeta. eexists _, _. split; [reflexivity|].
    rewrite root_reselected. simpl.
    split_and!; [done | lia | | done | |].
    + intros Hflag. rewrite Hflag, notification_suppressed by (by right).
      by rewrite app_nil_r.
    + intros _. apply wellFormed_reselected.
    + eapply distinctExternal_snoc; simpl; [reflexivity | reflexivity | lia].
  - rewrite removeError_run. cbv zeta.
    destruct (indexOf (_externalErrorList (root this)) error >? -1)%Z.
    + eexists _, _. split; [reflexivity|]. rewrite root_reselected. simpl.
      split_and!; [done | lia | | done | |].
      * intros Hflag. rewrite Hflag, notification_suppressed by (by right).
        by rewrite app_nil_r.
      * intros _. apply wellFormed_reselected.
      * apply distinctExternal_sublist; simpl; [apply splice1_sublist | lia].
    + exists this, s. by split_and!.
  - rewrite (bind_run _ _ _ _ _ (setSchema_run (root this) schema' s)).
    eexists _, _. split; [reflexivity|]. simpl.
    split_and!; [done | lia | intros _; by rewrite app_nil_r | done | done |].
    by apply distinctExternal_same; simpl; [|lia].
Qed.

Lemma runEdits_steps (edits : list Edit) (this : Value) (s : State) :
  exists (v' : Value) (s' : State),
    runEdits edits this s = (Return v', s')
    /\ suppressUpdateContextual s' = suppressUpdateContextual s
    /\ nextOid s <= nextOid s'
    /\ (suppressUpdateContextual s = true -> calls s' = calls s)
    /\ (validated (root this) -> validated (root v'))
    /\ (wellFormed this -> wellFormed v')
    /\ (distinctExternal s (root this) -> distinctExternal s' (root v')).
Proof.
  revert this s. induction edits as [|edit rest IH]; intros this s.
  - exists this, s. by split_and!.
  - destruct (applyEdit_step edit this s)
      as (v1 & s1 & Hrun1 & Hflag1 & Hle1 & Hcalls1 & Hval1 & Hwf1 & Hdis1).
    destruct (IH v1 s1)
      as (v2 & s2 & Hrun2 & Hflag2 & Hle2 & Hcalls2 & Hval2 & Hwf2 & Hdis2).
    exists v2, s2. simpl. rewrite (bind_run _ _ _ _ _ Hrun1).
    split_and!; [done | congruence | lia | | tauto | tauto | tauto].
    intros Hflag. rewrite Hcalls2 by congruence. by apply Hcalls1.
Qed.

(** ** create *)

Lemma create_run (options : CreateOptions) (s : State) :
  create options s
  = let value' :=
      match opt_value options with
      | None | Some JUndefined => JObject ∅
      | Some value => value
      end in
    let validate' :=
      default (fun schema value => Schema_validate schema value)
              (opt_validate options) in
    (Return (mkValueRoot (nextOid s) (opt_schema options) value'
               (default noop (opt_onChange options))
               (default ∅ (opt_params options))
               (match opt_errorList options with
                | None => validate' (opt_schema options) value'
                | Some errorList => errorList
                end)
               (default [] (opt_externalErrorList options))
               validate'),
     advance 1 [] s).
Proof.
  unfold create, newValueRoot. by rewrite (bind_run _ _ _ _ _ (alloc_run s)).
Qed.

(** X1: a root made by [create] without an [errorList], whatever the other
    options, and edited by any sequence of calls, has as validation errors
    those of its validator on its schema and document. *)
Theorem create_then_edits_validated (options : CreateOptions)
    (edits : list Edit) (s : State) :
  opt_errorList options = None ->
  exists v' : Value,
    result ((let* r := create options in runEdits edits (VRoot r)) s) = Return v'
    /\ validated (root v').
Proof.
  intros Hnone. rewrite (bind_run _ _ _ _ _ (create_run options s)).
  cbv zeta. rewrite Hnone.
  match goal with |- context [runEdits edits ?v ?st] =>
    destruct (runEdits_steps edits v st)
      as (v' & s' & -> & _ & _ & _ & Hval & _)
  end.
  exists v'. split; [done|]. by apply Hval.
Qed.

(** X2: any sequence of calls on a value whose root is validated returns a
    value whose root is validated. *)
Theorem edits_keep_validated (edits : list Edit) (this : Value) (s : State) :
  validated (root this) ->
  exists v' : Value,
    result (runEdits edits this s) = Return v' /\ validated (root v').
Proof.
  intros Hval.
  destruct (runEdits_steps edits this s) as (v' & s' & -> & _ & _ & _ & Hval' & _).
  exists v'. split; [done | by apply Hval'].
Qed.

(** X3: [create] takes a supplied [errorList] as it is, without consulting
    the validator, so the root it returns need not be validated; [update] and
    [setSchema] on such a root give a validated root all the same. *)
Theorem stale_errors_revalidated (options : CreateOptions) (stale : list Obj)
    (s : State) :
  opt_errorList options = Some stale ->
  exists r : ValueRoot,
    result (create options s) = Return r
    /\ _errorList r = stale
    /\ (forall valueUpdate b s',
          exists v' : Value,
            result (update (VRoot r) valueUpdate b s') = Return v'
            /\ validated (root v'))
    /\ (forall schema' s',
          exists r' : ValueRoot,
            result (setSchema r schema' s') = Return r' /\ validated r').
Proof.
  intros Hstale. rewrite create_run. cbv zeta. rewrite Hstale.
  eexists. split; [reflexivity|]. split; [reflexivity|]. split.
  - intros valueUpdate b s'. rewrite update_run. cbv zeta. eexists.
    split; [reflexivity|]. by rewrite root_reselected.
  - intros schema' s'. rewrite setSchema_run. eexists. by split.
Qed.

(** ** setSchema *)

(** X4: [setSchema] returns a new root with the schema given and the
    validation errors of the root's validator on that schema and the
    unchanged document; params, external errors, callback and validator are
    those of the receiver.  Given the schema the root already has, a
    validated root comes back equal to the receiver in every field but its
    identity. *)
Theorem setSchema_revalidates (this : ValueRoot) (schema' : Schema) (s : State) :
  exists r' : ValueRoot,
    result (setSchema this schema' s) = Return r'
    /\ root_oid r' = nextOid s
    /\ schema r' = schema'
    /\ _errorList r' = validate this schema' (value this)
    /\ value r' = value this
    /\ params r' = params this
    /\ _externalErrorList r' = _externalErrorList this
    /\ onChange r' = onChange this
    /\ validate r' = validate this
    /\ (validated this -> schema' = schema this ->
        r' = mkValueRoot (nextOid s) (schema this) (value this) (onChange this)
               (params this) (_errorList this) (_externalErrorList this)
               (validate this)).
Proof.
  rewrite setSchema_run. eexists. split; [reflexivity|]. simpl.
  split_and!; try done. intros Hval ->. by rewrite <- Hval.
Qed.

(** ** Invariants of sequences of calls *)

(** X5: no sequence of calls makes a branch with an empty key path: from a
    root, or a branch with a non-empty key path, every sequence returns a
    root or a branch with a non-empty key path. *)
Theorem edits_keep_well_formed (edits : list Edit) (this : Value) (s : State) :
  wellFormed this ->
  exists v' : Value,
    result (runEdits edits this s) = Return v' /\ wellFormed v'.
Proof.
  intros Hwf.
  destruct (runEdits_steps edits this s)
    as (v' & s' & -> & _ & _ & _ & _ & Hwf' & _).
  exists v'. split; [done | by apply Hwf'].
Qed.

(** X6: when the external error list holds allocated objects and none
    twice, it still does after any sequence of calls. *)
Theorem edits_keep_distinct_external (edits : list Edit) (this : Value)
    (s : State) :
  distinctExternal s (root this) ->
  exists (v' : Value) (s' : State),
    runEdits edits this s = (Return v', s')
    /\ distinctExternal s' (root v').
Proof.
  intros Hdis.
  destruct (runEdits_steps edits this s)
    as (v' & s' & Hrun & _ & _ & _ & _ & _ & Hdis').
  exists v', s'. split; [done | by apply Hdis'].
Qed.

(** X7: a sequence of calls run inside [suppressUpdate] returns, invokes no
    callback whatever the suppression arguments of the calls, and leaves the
    flag cleared. *)
Theorem suppressed_edits_silent (edits : list Edit) (this : Value) (s : State) :
  exists v' : Value,
    result (suppressUpdate (runEdits edits this) s) = Return v'
    /\ calls (final (suppressUpdate (runEdits edits this) s)) = calls s
    /\ suppressUpdateContextual (final (suppressUpdate (runEdits edits this) s))
       = false.
Proof.
  rewrite suppressUpdate_run. cbv zeta.
  destruct (runEdits_steps edits this (mkState true (nextOid s) (calls s)))
    as (v' & s' & -> & _ & _ & Hcalls & _).
  exists v'. simpl. split_and!; [done | by apply Hcalls | done].
Qed.

(** ** parent *)

Lemma newValueBranch_run (r : ValueRoot) (path : KeyPath) (s : State) :
  newValueBranch r path s = (Return (VBranch (nextOid s) r path), advance 1 [] s).
Proof.
  unfold newValueBranch. by rewrite (bind_run _ _ _ _ _ (alloc_run s)).
Qed.

Lemma length_snoc_eq_1 (path : KeyPath) (seg : Segment) :
  Nat.eqb (length (path ++ [seg])) 1 = match path with [] => true | _ => false end.
Proof.
  rewrite length_app. destruct path as [|a path]; simpl; [done|].
  destruct (length path); simpl; done.
Qed.

Lemma parent_snoc_run (id : Oid) (r : ValueRoot) (path : KeyPath)
    (seg : Segment) (s : State) :
  parent (VBranch id r (path ++ [seg])) s
  = (Return (Some (reselected r path (nextOid s))), advance (branchCost path) [] s).
Proof.
  unfold parent. rewrite length_snoc_eq_1, removelast_last.
  destruct path as [|a path].
  - unfold ret. simpl. by rewrite advance_0_nil.
  - by rewrite (bind_run _ _ _ _ _ (newValueBranch_run r (a :: path) s)).
Qed.

(** X8: the parent of a branch at a key path with last segment [seg] is
    what selecting the rest of the key path on the root gives: the root
    itself when nothing is left, a new branch otherwise.  A root has no
    parent. *)
Theorem parent_is_select_on_root (id : Oid) (r : ValueRoot) (path : KeyPath)
    (seg : Segment) (s : State) :
  parent (VBranch id r (path ++ [seg])) s
  = (let* up := select (VRoot r) (KeyArray path) in ret (Some up)) s
  /\ parent (VRoot r) s = (Return None, s).
Proof.
  split; [|done]. rewrite parent_snoc_run.
  by rewrite (bind_run _ _ _ _ _ (reselect_run r path s)).
Qed.

(** X9: selecting one segment and taking the parent comes back to the root
    and key path of the receiver.  On a root the parent is the receiver
    itself; on a branch it is a newly allocated branch, not the receiver. *)
Theorem select_then_parent (this : Value) (seg : Segment) (s : State) :
  wellFormed this ->
  exists (below up : Value) (s1 : State),
    select this (KeyArray [seg]) s = (Return below, s1)
    /\ result (parent below s1) = Return (Some up)
    /\ root up = root this
    /\ keyPath up = keyPath this
    /\ up = match this with
            | VRoot _ => this
            | VBranch _ r path => VBranch (nextOid s + 1) r path
            end.
Proof.
  intros Hwf. rewrite select_array_run.
  destruct this as [r | id r path].
  - eexists _, _, _. split; [reflexivity|]. simpl. by split_and!.
  - simpl in Hwf. destruct path as [|a path]; [done|].
    eexists _, _, _. split; [reflexivity|].
    change (keyPath (VBranch id r (a :: path))) with (a :: path).
    rewrite parent_snoc_run. simpl. by split_and!.
Qed.

(** ** updateParams *)

(** X10: [updateParams] merges shallowly: in the params of the returned
    value a key of the argument has the value of the argument and every
    other key the value it had; the document, schema, both error lists,
    callback and validator are those of the receiver. *)
Theorem updateParams_merges (this : Value) (params' : gmap string JSValue)
    (b : bool) (s : State) :
  exists v' : Value,
    result (updateParams this params' b s) = Return v'
    /\ keyPath v' = keyPath this
    /\ (forall name : string,
          paramsOf v' !! name
          = match params' !! name with
            | Some given => Some given
            | None => paramsOf this !! name
            end)
    /\ value (root v') = value (root this)
    /\ schema (root v') = schema (root this)
    /\ _errorList (root v') = _errorList (root this)
    /\ _externalErrorList (root v') = _externalErrorList (root this)
    /\ onChange (root v') = onChange (root this)
    /\ validate (root v') = validate (root this).
Proof.
  rewrite updateParams_run. cbv zeta. eexists. split; [reflexivity|].
  unfold paramsOf. rewrite keyPath_reselected, root_reselected. simpl.
  split_and!; try done. intros name. rewrite lookup_union.
  by destruct (params' !! name), (params (root this) !! name).
Qed.

(** ** Mutations of the external errors *)

(** X11: [updateError], [addError] and [removeError] change nothing but the
    external error list: document, schema, params, validation errors,
    callback and validator of the returned value's root are those of the
    receiver's. *)
Theorem external_error_edits_frame (this : Value) (b : bool) (s : State) :
  (forall error, exists v' : Value,
      result (updateError this error b s) = Return v'
      /\ sameDocument (root this) (root v'))
  /\ (forall error, exists v' : Value,
        result (addError this error b s) = Return v'
        /\ sameDocument (root this) (root v'))
  /\ (forall error, exists v' : Value,
        result (removeError this error b s) = Return v'
        /\ sameDocument (root this) (root v')).
Proof.
  unfold sameDocument. split_and!; intros error.
  - rewrite updateError_run. cbv zeta. eexists. split; [reflexivity|].
    by rewrite root_reselected.
  - rewrite addError_run. cbv zeta. eexists. split; [reflexivity|].
    by rewrite root_reselected.
  - rewrite removeError_run. cbv zeta.
    destruct (indexOf (_externalErrorList (root this)) error >? -1)%Z.
    + eexists. split; [reflexivity|]. by rewrite root_reselected.
    + by exists this.
Qed.

Lemma stampedWith_spread (field : string) (id : Oid) (error : Obj) :
  stampedWith field (mkObj id (spreadWithField error field)) error.
Proof.
  unfold stampedWith, spreadWithField. simpl. split.
  - apply lookup_insert_eq.
  - intros name Hname. by apply lookup_insert_ne.
Qed.

(** X12: [addError] keeps every entry of the external error list, in
    order, and adds after them one newly allocated record: the supplied one
    with its [field] set to the field string of the receiver's key path.
    Every call adds one entry, also with a record added before. *)
Theorem addError_appends (this : Value) (error : Obj) (b : bool) (s : State) :
  exists (v' : Value) (stored : Obj),
    result (addError this error b s) = Return v'
    /\ keyPath v' = keyPath this
    /\ _externalErrorList (root v') = _externalErrorList (root this) ++ [stored]
    /\ oid stored = nextOid s
    /\ stampedWith (fieldOfPath (keyPath this)) stored error
    /\ forall (b' : bool) (s' : State),
         exists (v'' : Value) (again : Obj),
           result (addError v' error b' s') = Return v''
           /\ _externalErrorList (root v'')
              = _externalErrorList (root this) ++ [stored; again]
           /\ own again = own stored.
Proof.
  rewrite addError_run. cbv zeta. eexists _, _. split; [reflexivity|].
  rewrite keyPath_reselected, root_reselected, dataField_fieldOfPath. simpl.
  split_and!; [done | done | done | apply stampedWith_spread |].
  intros b' s'. rewrite addError_run. cbv zeta. eexists _, _.
  split; [reflexivity|].
  rewrite keyPath_reselected, !root_reselected, dataField_fieldOfPath. simpl.
  by rewrite <- app_assoc.
Qed.

Lemma strictEqString_spread (field : string) (id : Oid) (error : Obj) :
  strictEqString (getProp (mkObj id (spreadWithField error field)) "field") field
  = true.
Proof.
  unfold getProp, spreadWithField. simpl. rewrite lookup_insert_eq. simpl.
  apply String.eqb_refl.
Qed.

Lemma strictEqString_spread_other (field field' : string) (id : Oid)
    (error : Obj) :
  field' <> field ->
  strictEqString (getProp (mkObj id (spreadWithField error field)) "field") field'
  = false.
Proof.
  intros Hne. unfold getProp, spreadWithField. simpl.
  rewrite lookup_insert_eq. simpl. apply String.eqb_neq. congruence.
Qed.

(** X13: an error added at a key path is reported by [errorList] at that
    key path, after the errors reported before; at a key path with another
    field string [errorList] reports what it reported before. *)
Theorem addError_errorList (this : Value) (error : Obj) (b : bool) (s : State) :
  exists (v' : Value) (stored : Obj),
    result (addError this error b s) = Return v'
    /\ last (_externalErrorList (root v')) = Some stored
    /\ errorList v' = errorList this ++ [stored]
    /\ forall other other' : Value,
         root other = root this ->
         root other' = root v' ->
         keyPath other' = keyPath other ->
         fieldOfPath (keyPath other) <> fieldOfPath (keyPath this) ->
         errorList other' = errorList other.
Proof.
  rewrite addError_run. cbv zeta. eexists _, _. split; [reflexivity|].
  unfold errorList, filterErrorListByKeyPath.
  rewrite keyPath_reselected, root_reselected. simpl.
  split_and!.
  - apply last_snoc.
  - rewrite List.filter_app. simpl. rewrite strictEqString_spread.
    by rewrite app_assoc.
  - intros other other' Hroot Hroot' Hpath Hfield.
    rewrite Hroot', Hroot, Hpath. simpl. rewrite List.filter_app. simpl.
    rewrite strictEqString_spread_other
      by (by rewrite !dataField_fieldOfPath).
    by rewrite app_nil_r.
Qed.

Lemma bounded_not_held (l : list Obj) (bound : Oid) (error : Obj) :
  Forall (fun entry => oid entry < bound) l ->
  bound <= oid error ->
  Forall (fun entry => oid entry <> oid error) l.
Proof.
  intros Hl Hle. eapply Forall_impl; [exact Hl|]. simpl. intros entry Hentry. lia.
Qed.

(** X14: when the external error list holds only allocated objects,
    removing the record [addError] has stored, the last entry of the list it
    returns, gives back the external error list there was before. *)
Theorem addError_removeError_round_trip (this : Value) (error : Obj)
    (b b' : bool) (s : State) :
  Forall (fun entry => oid entry < nextOid s) (_externalErrorList (root this)) ->
  exists (v' : Value) (s' : State) (stored : Obj),
    addError this error b s = (Return v', s')
    /\ last (_externalErrorList (root v')) = Some stored
    /\ exists v'' : Value,
         result (removeError v' stored b' s') = Return v''
         /\ keyPath v'' = keyPath this
         /\ _externalErrorList (root v'') = _externalErrorList (root this).
Proof.
  intros Hbound. rewrite addError_run. cbv zeta. eexists _, _, _.
  split; [reflexivity|]. rewrite root_reselected. simpl.
  split; [apply last_snoc|]. rewrite removeError_run. cbv zeta.
  rewrite root_reselected, keyPath_reselected. simpl. unfold indexOf.
  rewrite indexOfFrom_first; [| by eapply bounded_not_held | done].
  assert ((0 + Z.of_nat (length (_externalErrorList (root this))) >? -1)%Z = true)
    as -> by (apply Z.gtb_gt; lia).
  eexists. split; [reflexivity|].
  rewrite keyPath_reselected, root_reselected. simpl.
  by rewrite Z.add_0_l, splice1_middle, app_nil_r.
Qed.

(** X15: the record handed to [addError] is not the record stored.  For a
    record that exists already and is not held in the external error list,
    [removeError] of that same record after [addError] finds nothing: it
    returns its receiver and leaves the state as it is. *)
Theorem removeError_of_supplied_record (this : Value) (error : Obj)
    (b b' : bool) (s : State) :
  oid error < nextOid s ->
  ~ heldIn error (_externalErrorList (root this)) ->
  exists (v' : Value) (s' : State),
    addError this error b s = (Return v', s')
    /\ removeError v' error b' s' = (Return v', s').
Proof.
  intros Hold Hnot. rewrite addError_run. cbv zeta. eexists _, _.
  split; [reflexivity|]. rewrite removeError_run. cbv zeta.
  rewrite root_reselected. simpl. unfold indexOf.
  rewrite indexOfFrom_absent; [done|].
  apply Forall_app. split.
  - by apply Forall_Exists_neg.
  - constructor; [simpl; lia | constructor].
Qed.

Lemma filter_stampedFrom (field : string) (base : Oid) (errors : list Obj) :
  List.filter (fun error => strictEqString (getProp error "field") field)
              (stampedFrom field base errors)
  = stampedFrom field base errors.
Proof.
  revert base. induction errors as [|error rest IH]; intros base; simpl; [done|].
  by rewrite strictEqString_spread, IH.
Qed.

Lemma filter_stampedFrom_other (field field' : string) (base : Oid)
    (errors : list Obj) :
  field' <> field ->
  List.filter (fun error => strictEqString (getProp error "field") field')
              (stampedFrom field base errors)
  = [].
Proof.
  intros Hne. revert base.
  induction errors as [|error rest IH]; intros base; simpl; [done|].
  by rewrite strictEqString_spread_other, IH.
Qed.

(** X16: after [updateError] at a key path, [errorList] at that key path
    reports the validation errors of that path and then the whole external
    error list; at a key path with another field string it reports
    validation errors only. *)
Theorem updateError_errorList (this : Value) (error : ErrorArg) (b : bool)
    (s : State) :
  exists v' : Value,
    result (updateError this error b s) = Return v'
    /\ errorList v'
       = filterErrorListByKeyPath (_errorList (root this)) (keyPath this)
         ++ _externalErrorList (root v')
    /\ forall other' : Value,
         root other' = root v' ->
         fieldOfPath (keyPath other') <> fieldOfPath (keyPath this) ->
         errorList other'
         = filterErrorListByKeyPath (_errorList (root this)) (keyPath other').
Proof.
  rewrite updateError_run. cbv zeta. eexists. split; [reflexivity|].
  unfold errorList, filterErrorListByKeyPath.
  rewrite keyPath_reselected, root_reselected. simpl. split.
  - by rewrite filter_stampedFrom.
  - intros other' -> Hfield. simpl.
    rewrite filter_stampedFrom_other by (by rewrite !dataField_fieldOfPath).
    by rewrite app_nil_r.
Qed.

(** ** removeError *)

Lemma heldIn_first (error : Obj) (l : list Obj) :
  heldIn error l ->
  exists (before after : list Obj) (found : Obj),
    l = before ++ found :: after
    /\ Forall (fun entry => oid entry <> oid error) before
    /\ oid found = oid error.
Proof.
  induction 1 as [x l Hx | x l _ (before & after & found & -> & Hbefore & Hfound)].
  - by exists [], l, x.
  - destruct (decide (oid x = oid error)) as [Heq | Hne].
    + by exists [], (before ++ found :: after), x.
    + exists (x :: before), after, found. split_and!; [done | by constructor | done].
Qed.

(** X17: when the external error list holds no object twice, a record
    removed by [removeError] is no longer held in the external error list
    of the returned value, and that list is one entry shorter. *)
Theorem removeError_gone (this : Value) (error : Obj) (b : bool) (s : State) :
  NoDup (map oid (_externalErrorList (root this))) ->
  heldIn error (_externalErrorList (root this)) ->
  exists v' : Value,
    result (removeError this error b s) = Return v'
    /\ ~ heldIn error (_externalErrorList (root v'))
    /\ S (length (_externalErrorList (root v')))
       = length (_externalErrorList (root this)).
Proof.
  intros Hnodup Hheld.
  destruct (heldIn_first _ _ Hheld) as (before & after & found & Hl & Hbefore & Hfound).
  rewrite removeError_run. cbv zeta. unfold indexOf.
  rewrite Hl, (indexOfFrom_first _ _ _ _ _ Hbefore Hfound).
  assert ((0 + Z.of_nat (length before) >? -1)%Z = true) as ->
    by (apply Z.gtb_gt; lia).
  eexists. split; [reflexivity|]. rewrite root_reselected. simpl.
  rewrite Z.add_0_l, splice1_middle. split.
  - rewrite Hl, map_app in Hnodup. simpl in Hnodup.
    apply NoDup_app in Hnodup as (_ & Hdisjoint & Hafter).
    apply NoDup_cons in Hafter as [Hafter _].
    unfold heldIn. rewrite Exists_app. intros [Hin | Hin].
    + rewrite Forall_Exists_neg in Hbefore. done.
    + apply Exists_exists in Hin as (entry & Hentry & Hoid).
      apply Hafter. rewrite Hfound, <- Hoid.
      apply list_elem_of_fmap. by exists entry.
  - rewrite !length_app. simpl. lia.
Qed.

(** ** errorList against completeErrorList *)

Lemma filter_sublist {A : Type} (keep : A -> bool) (l : list A) :
  List.filter keep l `sublist_of` l.
Proof.
  induction l as [|x l IH]; simpl; [constructor|].
  destruct (keep x); by constructor.
Qed.

Lemma filterThrowing_sublist {A : Type} (keep : A -> Outcome bool)
    (l kept : list A) :
  filterThrowing keep l = Return kept -> kept `sublist_of` l.
Proof.
  revert kept. induction l as [|x l IH]; intros kept; simpl.
  - intros [= <-]. constructor.
  - destruct (keep x) as [bx|]; [|done].
    destruct (filterThrowing keep l) as [kept'|]; [|done].
    intros [= <-]. specialize (IH kept' eq_refl).
    destruct bx; by constructor.
Qed.

(** Two filters over one list: what the narrower one keeps is kept, in the
    same order, by the wider one. *)
Lemma filterThrowing_narrower {A : Type} (wide narrow : A -> Outcome bool)
    (l keptWide keptNarrow : list A) :
  (forall x, narrow x = Return true -> wide x = Return true) ->
  filterThrowing wide l = Return keptWide ->
  filterThrowing narrow l = Return keptNarrow ->
  keptNarrow `sublist_of` keptWide.
Proof.
  intros Himpl. revert keptWide keptNarrow.
  induction l as [|x l IH]; intros keptWide keptNarrow; simpl.
  - intros [= <-] [= <-]. constructor.
  - destruct (wide x) as [bw|] eqn:Hw; [|done].
    destruct (filterThrowing wide l) as [kw|]; [|done].
    destruct (narrow x) as [bn|] eqn:Hn; [|done].
    destruct (filterThrowing narrow l) as [kn|]; [|done].
    intros [= <-] [= <-]. specialize (IH kw kn eq_refl eq_refl).
    destruct bn.
    + rewrite (Himpl x Hn) in Hw. injection Hw as <-. by constructor.
    + destruct bw; [by constructor | done].
Qed.

Lemma prefixMatches_exact (field : string) (error : Obj) :
  strictEqString (getProp error "field") field = true ->
  prefixMatches field error = Return true.
Proof. intros Heq. unfold prefixMatches. by rewrite Heq. Qed.

Lemma exact_within_prefix (field : string) (l kept : list Obj) :
  filterThrowing (prefixMatches field) l = Return kept ->
  List.filter (fun error => strictEqString (getProp error "field") field) l
  `sublist_of` kept.
Proof.
  revert kept. induction l as [|x l IH]; intros kept; simpl.
  - intros [= <-]. constructor.
  - destruct (strictEqString (getProp x "field") field) eqn:Hx.
    + rewrite (prefixMatches_exact _ _ Hx).
      destruct (filterThrowing (prefixMatches field) l) as [kept'|]; [|done].
      intros [= <-]. constructor. by apply IH.
    + destruct (prefixMatches field x) as [bx|]; [|done].
      destruct (filterThrowing (prefixMatches field) l) as [kept'|]; [|done].
      intros [= <-]. specialize (IH kept' eq_refl).
      destruct bx; [by constructor | done].
Qed.

(** X18: whenever [completeErrorList] returns, it holds every error of
    [errorList] at the same value, in the same order. *)
Theorem errorList_within_completeErrorList (this : Value) (complete : list Obj) :
  completeErrorList this = Return complete ->
  errorList this `sublist_of` complete.
Proof.
  unfold completeErrorList, filterErrorListByKeyPathPrefix, errorList,
    filterErrorListByKeyPath.
  destruct (keyPath this) as [|seg path] eqn:Hpath; simpl.
  - intros [= <-]. apply sublist_app; apply filter_sublist.
  - destruct (filterThrowing _ (_errorList (root this))) as [validation|] eqn:Hv;
      [|done].
    destruct (filterThrowing _ (_externalErrorList (root this)))
      as [external|] eqn:He; [|done].
    intros [= <-]. apply sublist_app; by apply exact_within_prefix.
Qed.

Lemma dotJoined_app (p q : KeyPath) :
  dotJoined (p ++ q) = dotJoined p +:+ dotJoined q.
Proof.
  induction p as [|seg p IH]; [done|].
  change (dotJoined ((seg :: p) ++ q))
    with ("." +:+ toString seg +:+ dotJoined (p ++ q)).
  change (dotJoined (seg :: p)) with ("." +:+ toString seg +:+ dotJoined p).
  by rewrite IH, !append_assoc.
Qed.

Lemma fieldOfPath_app (p q : KeyPath) :
  fieldOfPath (p ++ q) = fieldOfPath p +:+ dotJoined q.
Proof. unfold fieldOfPath. by rewrite dotJoined_app, append_assoc. Qed.

(** A field string at or below a longer key path is below the shorter one. *)
Lemma under_longer_path (field s : string) (path : KeyPath) :
  s = field +:+ dotJoined path \/ startsWithDot (field +:+ dotJoined path) s ->
  s = field \/ startsWithDot field s.
Proof.
  destruct path as [|seg rest].
  - change (dotJoined []) with EmptyString. by rewrite append_empty_r.
  - change (dotJoined (seg :: rest))
      with ("." +:+ toString seg +:+ dotJoined rest).
    intros [-> | [tail ->]]; right.
    + by exists (toString seg +:+ dotJoined rest).
    + exists ((toString seg +:+ dotJoined rest) +:+ "." +:+ tail).
      by rewrite !append_assoc.
Qed.

Lemma prefixMatches_true_string (field : string) (error : Obj) :
  prefixMatches field error = Return true ->
  exists s : string, own error !! "field" = Some (JString s).
Proof.
  unfold prefixMatches, getProp, strictEqString.
  destruct (own error !! "field") as [[| | | |s| |]|]; simpl; try done.
  intros _. by exists s.
Qed.

Lemma prefixMatches_longer_path (field : string) (path : KeyPath) (error : Obj) :
  prefixMatches (field +:+ dotJoined path) error = Return true ->
  prefixMatches field error = Return true.
Proof.
  intros Hlong. destruct (prefixMatches_true_string _ _ Hlong) as [s Hs].
  destruct (prefixMatches_string (field +:+ dotJoined path) s error Hs)
    as (b1 & Hb1 & Hiff1).
  destruct (prefixMatches_string field s error Hs) as (b2 & -> & Hiff2).
  rewrite Hb1 in Hlong. injection Hlong as ->.
  f_equal. apply Hiff2. eapply under_longer_path. by apply Hiff1.
Qed.

(** X19: the errors of a part are errors of the whole: whenever
    [completeErrorList] returns at a value and at a value further down the
    same root, what it returns further down is held, in the same order, in
    what it returns above. *)
Theorem completeErrorList_descendant (this below : Value) (path : KeyPath)
    (above inside : list Obj) :
  root below = root this ->
  keyPath below = keyPath this ++ path ->
  completeErrorList this = Return above ->
  completeErrorList below = Return inside ->
  inside `sublist_of` above.
Proof.
  unfold completeErrorList, filterErrorListByKeyPathPrefix.
  intros -> ->.
  destruct (keyPath this) as [|seg rest] eqn:Hthis.
  - simpl. intros [= <-].
    destruct path as [|seg path]; simpl.
    + by intros [= <-].
    + destruct (filterThrowing _ (_errorList (root this))) as [v|] eqn:Hv; [|done].
      destruct (filterThrowing _ (_externalErrorList (root this)))
        as [e|] eqn:He; [|done].
      intros [= <-].
      apply sublist_app; by eapply filterThrowing_sublist.
  - change (Nat.eqb (length (seg :: rest)) 0) with false.
    change (Nat.eqb (length ((seg :: rest) ++ path)) 0) with false.
    cbv iota. rewrite !dataField_fieldOfPath, fieldOfPath_app.
    destruct (filterThrowing (prefixMatches (fieldOfPath (seg :: rest)))
                             (_errorList (root this))) as [v1|] eqn:Hv1; [|done].
    destruct (filterThrowing (prefixMatches (fieldOfPath (seg :: rest)))
                             (_externalErrorList (root this)))
      as [e1|] eqn:He1; [|done].
    intros [= <-].
    destruct (filterThrowing
                (prefixMatches (fieldOfPath (seg :: rest) +:+ dotJoined path))
                (_errorList (root this))) as [v2|] eqn:Hv2; [|done].
    destruct (filterThrowing
                (prefixMatches (fieldOfPath (seg :: rest) +:+ dotJoined path))
                (_externalErrorList (root this))) as [e2|] eqn:He2; [|done].
    intros [= <-].
    apply sublist_app.
    + eapply filterThrowing_narrower; [| exact Hv1 | exact Hv2].
      intros x. apply prefixMatches_longer_path.
    + eapply filterThrowing_narrower; [| exact He1 | exact He2].
      intros x. apply prefixMatches_longer_path.
Qed.

(** ** When completeErrorList raises *)

Lemma prefixMatches_sliceable (field : string) (error : Obj) :
  sliceable error -> exists b : bool, prefixMatches field error = Return b.
Proof.
  unfold sliceable, prefixMatches, strictEqString.
  destruct (getProp error "field") as [| | | |s| |]; try done; intros _.
  all: try destruct (String.eqb s field); by eexists.
Qed.

Lemma prefixMatches_not_sliceable (field : string) (error : Obj) :
  ~ sliceable error -> prefixMatches field error = Throw TypeError.
Proof.
  unfold sliceable, prefixMatches, strictEqString.
  destruct (getProp error "field"); try done; intros Hnot; by destruct Hnot.
Qed.

Lemma prefixMatches_throws (field : string) (error : Obj) (e : Exn) :
  prefixMatches field error = Throw e -> e = TypeError.
Proof.
  unfold prefixMatches, strictEqString.
  destruct (getProp error "field") as [| | | |s| |]; try (by intros [= <-]).
  all: try destruct (String.eqb s field); done.
Qed.

Lemma filterThrowing_sliceable (field : string) (l : list Obj) :
  Forall sliceable l ->
  exists kept : list Obj, filterThrowing (prefixMatches field) l = Return kept.
Proof.
  induction 1 as [|x l Hx _ [kept Hkept]]; simpl; [by eexists|].
  destruct (prefixMatches_sliceable field x Hx) as [bx ->].
  rewrite Hkept. by eexists.
Qed.

Lemma filterThrowing_not_sliceable (field : string) (l : list Obj) :
  Exists (fun error => ~ sliceable error) l ->
  filterThrowing (prefixMatches field) l = Throw TypeError.
Proof.
  induction 1 as [x l Hx | x l _ IH]; simpl.
  - by rewrite (prefixMatches_not_sliceable field x Hx).
  - destruct (prefixMatches field x) as [bx|e] eqn:Hx.
    + by rewrite IH.
    + by rewrite (prefixMatches_throws _ _ _ Hx).
Qed.

(** X20: below the root, [completeErrorList] returns when the [field] of
    every record of both lists is a string or an array, and raises a
    [TypeError] when some record of either list has any other [field], a
    missing one included; at the root it returns whatever the records are. *)
Theorem completeErrorList_raises (this : Value) :
  (keyPath this <> [] ->
   Forall sliceable (_errorList (root this) ++ _externalErrorList (root this)) ->
   exists complete : list Obj, completeErrorList this = Return complete)
  /\ (keyPath this <> [] ->
      Exists (fun error => ~ sliceable error)
             (_errorList (root this) ++ _externalErrorList (root this)) ->
      completeErrorList this = Throw TypeError)
  /\ (keyPath this = [] ->
      exists complete : list Obj, completeErrorList this = Return complete).
Proof.
  unfold completeErrorList, filterErrorListByKeyPathPrefix. split_and!.
  - intros Hpath [Hv He]%Forall_app.
    destruct (keyPath this) as [|seg rest]; [done|]. simpl.
    destruct (filterThrowing_sliceable (dataField (seg :: rest)) _ Hv) as [v ->].
    destruct (filterThrowing_sliceable (dataField (seg :: rest)) _ He) as [e ->].
    by eexists.
  - intros Hpath [Hv | He]%Exists_app.
    + destruct (keyPath this) as [|seg rest]; [done|]. simpl.
      by rewrite (filterThrowing_not_sliceable _ _ Hv).
    + destruct (keyPath this) as [|seg rest]; [done|]. simpl.
      rewrite (filterThrowing_not_sliceable _ _ He).
      destruct (filterThrowing _ (_errorList (root this))) as [v|e] eqn:Hv; [done|].
      clear He. revert e Hv.
      induction (_errorList (root this)) as [|x l IH]; intros e; simpl; [done|].
      destruct (prefixMatches _ x) as [bx|ex] eqn:Hx.
      * destruct (filterThrowing _ l) as [k|e'] eqn:Hl; [done|].
        intros [= <-]. by apply IH.
      * intros [= <-]. by rewrite (prefixMatches_throws _ _ _ Hx).
  - intros ->. simpl. by eexists.
Qed.

End MoreProperties.

(** ** The sample form, run *)

Import Sample.

Example dataField_nested : dataField [SKey "a"; SIndex 10; SKey "b"] = "data.a.10.b".
Proof. reflexivity. Qed.

Example makeKeyPath_dotted :
  makeKeyPath (KeyString "a.10.b") = [SKey "a"; SIndex 10; SKey "b"].
Proof. reflexivity. Qed.

Example fieldOfPath_root : fieldOfPath [] = "data".
Proof. reflexivity. Qed.

Example errorList_at_a : errorList at_a = [taken; takenCopy].
Proof. reflexivity. Qed.

Example completeErrorList_at_a :
  completeErrorList at_a = Return [taken; late; takenCopy].
Proof. reflexivity. Qed.

Example completeErrorList_fieldless :
  filterErrorListByKeyPathPrefix [taken; fieldless] [SKey "a"] = Throw TypeError
  /\ filterErrorListByKeyPathPrefix [taken; fieldless] [] = Return [taken; fieldless].
Proof. split; reflexivity. Qed.

Example update_at_a :
  exists v' : Value,
    result (update at_a (JNumber 2) false s0) = Return v'
    /\ value (root v') = JObject {[ "a" := JNumber 2 ]}
    /\ keyPath v' = [SKey "a"]
    /\ calls (final (update at_a (JNumber 2) false s0))
       = [mkCall 7 (root v') [SKey "a"]].
Proof. eexists. split; [reflexivity|]. repeat split; reflexivity. Qed.

Example suppressUpdate_silences :
  calls (final (suppressUpdate (update at_a (JNumber 2) false) s0)) = [].
Proof. reflexivity. Qed.

Example suppressUpdate_after_throw :
  suppressUpdate (A:=unit) (throw TypeError) s0 = (Throw TypeError, s0).
Proof. reflexivity. Qed.

(** C2: inside a [suppressUpdate] scope, once an inner [suppressUpdate] has
    returned the flag reads [false], and an [update] made by the rest of
    the outer callback invokes [onChange]: the inner exit clears the flag
    instead of restoring the value it had on entry. *)
Theorem suppressUpdate_nested_unsuppressed :
  result (nested s0) = Return false
  /\ exists nextRoot : ValueRoot,
       calls (final (nested s0)) = [mkCall (onChange root0) nextRoot [SKey "a"]].
Proof.
  unfold nested. rewrite suppressUpdate_run. cbv zeta.
  rewrite (bind_run _ _ _ _ _ (suppressUpdate_run (ret tt) _)).
  unfold bind at 1, getSuppressUpdateContextual; cbn [suppressUpdateContextual].
  unfold bind at 1. rewrite update_run. cbv zeta. unfold ret.
  split; [reflexivity|]. eexists. reflexivity.
Qed.

(** C1, refuted for [setSchema]: on the sample root, with nothing
    suppressed, [setSchema] returns without any invocation of [onChange]. *)
Lemma setSchema_without_onChange :
  notSuppressed false s0
  /\ ~ (exists nextRoot : ValueRoot,
         result (setSchema root0 ["a"; "b"] s0) = Return nextRoot
         /\ calls (final (setSchema root0 ["a"; "b"] s0))
            = calls s0 ++ [mkCall (onChange root0) nextRoot []]).
Proof.
  split; [done|]. intros [nextRoot [_ Hcalls]].
  rewrite setSchema_run in Hcalls. discriminate Hcalls.
Qed.

Lemma onChange_once_witness :
  notSuppressed false s0
  /\ notifiedOnce at_a s0 (update at_a (JNumber 2) false s0)
  /\ heldIn late (_externalErrorList (root at_a))
  /\ notifiedOnce at_a s0 (removeError at_a late false s0).
Proof.
  assert (notSuppressed false s0) as Hns by (split; reflexivity).
  assert (heldIn late (_externalErrorList (root at_a))) as Hheld
    by (apply Exists_cons_tl, Exists_cons_hd; reflexivity).
  destruct (onChange_once_per_mutation at_a false s0 Hns)
    as (Hupdate & _ & _ & _ & Hremove & _).
  split; [exact Hns|]. split; [apply Hupdate|].
  split; [exact Hheld | exact (Hremove late Hheld)].
Defined.

Lemma removeError_witness :
  own takenCopy = own taken
  /\ (exists v' : Value,
        result (removeError at_a takenCopy false s0) = Return v'
        /\ _externalErrorList (root v') = [taken; late]
        /\ root_oid (root v') = nextOid s0
        /\ keyPath v' = keyPath at_a)
  /\ removeError at_a (mkObj 9 (own taken)) false s0 = (Return at_a, s0).
Proof.
  split; [reflexivity|]. split.
  - destruct (removeError_by_reference at_a takenCopy false s0) as [Hfound _].
    apply (Hfound [taken; late] [] takenCopy).
    + reflexivity.
    + repeat constructor; vm_compute; lia.
    + reflexivity.
  - destruct (removeError_by_reference at_a (mkObj 9 (own taken)) false s0)
      as [_ Habsent].
    apply Habsent. repeat constructor; vm_compute; lia.
Defined.

(** C7, refuted as it stands: at the key path [a], an external error list
    that holds an object without [field] makes [completeErrorList] raise a
    [TypeError] instead of returning the selected records. *)
Lemma completeErrorList_fails_without_field :
  keyPath (VBranch 5 Session.rootLost [SKey "a"]) <> []
  /\ completeErrorList (VBranch 5 Session.rootLost [SKey "a"]) = Throw TypeError
  /\ ~ (exists kept : list Obj,
          completeErrorList (VBranch 5 Session.rootLost [SKey "a"]) = Return kept).
Proof.
  split; [discriminate|].
  assert (completeErrorList (VBranch 5 Session.rootLost [SKey "a"])
          = Throw TypeError) as Hraise by reflexivity.
  split; [exact Hraise|]. intros [kept Hkept]. rewrite Hraise in Hkept.
  discriminate Hkept.
Qed.

Lemma completeErrorList_witness :
  keyPath (VBranch 5 Session.rootMixed [SKey "a"]) <> []
  /\ Forall sliceable (_errorList Session.rootMixed)
  /\ Forall sliceable (_externalErrorList Session.rootMixed)
  /\ completeErrorList (VBranch 5 Session.rootMixed [SKey "a"])
     = Return [late; taken; late]
  /\ completeErrorList (VRoot Session.rootMixed)
     = Return [Session.sibling; late; taken; Session.sibling; late;
               Session.listed]
  /\ exists validation external : list Obj,
       completeErrorList (VBranch 5 Session.rootMixed [SKey "a"])
       = Return (validation ++ external)
       /\ Selects (fieldUnder (fieldOfPath [SKey "a"]))
                  (_errorList Session.rootMixed) validation
       /\ Selects (fieldUnder (fieldOfPath [SKey "a"]))
                  (_externalErrorList Session.rootMixed) external.
Proof.
  assert (keyPath (VBranch 5 Session.rootMixed [SKey "a"]) <> []) as Hpath
    by discriminate.
  assert (Forall sliceable (_errorList Session.rootMixed)) as Hvalidation
    by (repeat constructor).
  assert (Forall sliceable (_externalErrorList Session.rootMixed)) as Hexternal
    by (repeat constructor).
  destruct (completeErrorList_prefix (VBranch 5 Session.rootMixed [SKey "a"]))
    as (_ & Hprefix & _).
  destruct (completeErrorList_prefix (VRoot Session.rootMixed)) as (Hroot & _ & _).
  split; [exact Hpath|]. split; [exact Hvalidation|].
  split; [exact Hexternal|]. split; [reflexivity|].
  split; [exact (Hroot eq_refl)|].
  exact (Hprefix Hpath Hvalidation Hexternal).
Defined.

(** ** The sample session, run *)

Import Session.

Example session_run :
  match (let* r := create fresh in runEdits session (VRoot r)) s0 with
  | (Return v', s') =>
      keyPath v' = []
      /\ value (root v') = JObject {[ "a" := JNumber 2 ]}
      /\ schema (root v') = ["a"]
      /\ map oid (_errorList (root v')) = []
      /\ map oid (_externalErrorList (root v')) = [17; 18]
      /\ map call_keyPath (calls s') = [[SKey "a"]; [SKey "a"]; []]
  | (Throw _, _) => False
  end.
Proof. vm_compute. repeat split. Qed.

Lemma create_then_edits_witness :
  opt_errorList fresh = None
  /\ exists v' : Value,
       result ((let* r := create fresh in runEdits session (VRoot r)) s0)
       = Return v'
       /\ validated (root v').
Proof.
  split; [reflexivity|].
  apply (create_then_edits_validated fresh session s0). reflexivity.
Defined.

Lemma edits_keep_validated_witness :
  validated (root at_a)
  /\ exists v' : Value,
       result (runEdits session at_a s0) = Return v' /\ validated (root v').
Proof.
  assert (validated (root at_a)) as Hval by reflexivity.
  split; [exact Hval|]. exact (edits_keep_validated session at_a s0 Hval).
Defined.

Lemma stale_errors_witness :
  opt_errorList seeded = Some [taken]
  /\ exists r : ValueRoot,
       result (create seeded s0) = Return r
       /\ _errorList r = [taken]
       /\ ~ validated r
       /\ exists v' : Value,
            result (update (VRoot r) (JObject {[ "a" := JNumber 1 ]}) false s0)
            = Return v'
            /\ validated (root v').
Proof.
  split; [reflexivity|].
  destruct (stale_errors_revalidated seeded [taken] s0 eq_refl)
    as (r & Hr & Herrors & Hupdate & _).
  exists r. split; [exact Hr|]. split; [exact Herrors|]. split.
  - injection Hr as <-. unfold validated. simpl. discriminate.
  - exact (Hupdate (JObject {[ "a" := JNumber 1 ]}) false s0).
Defined.

Lemma setSchema_same_schema_witness :
  validated root0
  /\ exists r' : ValueRoot,
       result (setSchema root0 (schema root0) s0) = Return r'
       /\ r' = mkValueRoot (nextOid s0) (schema root0) (value root0)
                 (onChange root0) (params root0) (_errorList root0)
                 (_externalErrorList root0) (validate root0).
Proof.
  assert (validated root0) as Hval by reflexivity.
  split; [exact Hval|].
  destruct (setSchema_revalidates root0 (schema root0) s0)
    as (r' & Hr' & _ & _ & _ & _ & _ & _ & _ & _ & Hsame).
  exists r'. split; [exact Hr' | exact (Hsame Hval eq_refl)].
Defined.

Lemma edits_keep_well_formed_witness :
  wellFormed at_a
  /\ exists v' : Value,
       result (runEdits session at_a s0) = Return v' /\ wellFormed v'.
Proof.
  assert (wellFormed at_a) as Hwf by discriminate.
  split; [exact Hwf|]. exact (edits_keep_well_formed session at_a s0 Hwf).
Defined.

Lemma edits_keep_distinct_witness :
  distinctExternal s0 (root at_a)
  /\ exists (v' : Value) (s' : State),
       runEdits session at_a s0 = (Return v', s')
       /\ distinctExternal s' (root v').
Proof.
  assert (distinctExternal s0 (root at_a)) as Hdis.
  { split.
    - apply (bool_decide_unpack (NoDup (map oid (_externalErrorList (root at_a))))).
      vm_compute. exact I.
    - repeat constructor; vm_compute; lia. }
  split; [exact Hdis|]. exact (edits_keep_distinct_external session at_a s0 Hdis).
Defined.

Lemma select_then_parent_witness :
  wellFormed at_a
  /\ exists (below up : Value) (s1 : State),
       select at_a (KeyArray [SKey "b"]) s0 = (Return below, s1)
       /\ result (parent below s1) = Return (Some up)
       /\ root up = root at_a
       /\ keyPath up = keyPath at_a
       /\ up = VBranch 11 root0 [SKey "a"].
Proof.
  assert (wellFormed at_a) as Hwf by discriminate.
  split; [exact Hwf|]. exact (select_then_parent at_a (SKey "b") s0 Hwf).
Defined.

Lemma addError_errorList_witness :
  root at_a_b = root at_a
  /\ fieldOfPath (keyPath at_a_b) <> fieldOfPath (keyPath at_a)
  /\ exists (v' : Value) (stored : Obj),
       result (addError at_a fieldless false s0) = Return v'
       /\ errorList v' = errorList at_a ++ [stored]
       /\ errorList (VBranch 8 (root v') [SKey "a"; SKey "b"]) = errorList at_a_b.
Proof.
  assert (fieldOfPath (keyPath at_a_b) <> fieldOfPath (keyPath at_a)) as Hfield
    by (vm_compute; discriminate).
  split; [reflexivity|]. split; [exact Hfield|].
  destruct (addError_errorList at_a fieldless false s0)
    as (v' & stored & Hv' & _ & Hlist & Hother).
  exists v', stored. split; [exact Hv'|]. split; [exact Hlist|].
  exact (Hother at_a_b (VBranch 8 (root v') [SKey "a"; SKey "b"])
           eq_refl eq_refl eq_refl Hfield).
Defined.

Lemma addError_round_trip_witness :
  Forall (fun entry => oid entry < nextOid s0) (_externalErrorList (root at_a))
  /\ exists (v' : Value) (s' : State) (stored : Obj),
       addError at_a fieldless false s0 = (Return v', s')
       /\ last (_externalErrorList (root v')) = Some stored
       /\ exists v'' : Value,
            result (removeError v' stored false s') = Return v''
            /\ keyPath v'' = keyPath at_a
            /\ _externalErrorList (root v'') = _externalErrorList (root at_a).
Proof.
  assert (Forall (fun entry => oid entry < nextOid s0)
                 (_externalErrorList (root at_a))) as Hbound
    by (repeat constructor; vm_compute; lia).
  split; [exact Hbound|].
  exact (addError_removeError_round_trip at_a fieldless false false s0 Hbound).
Defined.

Lemma removeError_of_supplied_witness :
  oid fieldless < nextOid s0
  /\ ~ heldIn fieldless (_externalErrorList (root at_a))
  /\ exists (v' : Value) (s' : State),
       addError at_a fieldless false s0 = (Return v', s')
       /\ removeError v' fieldless false s' = (Return v', s').
Proof.
  assert (oid fieldless < nextOid s0) as Hold by (vm_compute; lia).
  assert (~ heldIn fieldless (_externalErrorList (root at_a))) as Hnot.
  { apply Forall_Exists_neg. repeat constructor; vm_compute; lia. }
  split; [exact Hold|]. split; [exact Hnot|].
  exact (removeError_of_supplied_record at_a fieldless false false s0 Hold Hnot).
Defined.

Lemma updateError_errorList_witness :
  fieldOfPath (keyPath at_a_b) <> fieldOfPath (keyPath at_a)
  /\ exists v' : Value,
       result (updateError at_a (ErrorArray [late; fieldless]) false s0) = Return v'
       /\ map oid (errorList v') = [10; 11]
       /\ errorList (VBranch 8 (root v') [SKey "a"; SKey "b"]) = [].
Proof.
  assert (fieldOfPath (keyPath at_a_b) <> fieldOfPath (keyPath at_a)) as Hfield
    by (vm_compute; discriminate).
  split; [exact Hfield|].
  destruct (updateError_errorList at_a (ErrorArray [late; fieldless]) false s0)
    as (v' & Hv' & Hlist & Hother).
  exists v'. split; [exact Hv'|]. split.
  - rewrite Hlist. injection Hv' as <-. reflexivity.
  - exact (Hother (VBranch 8 (root v') [SKey "a"; SKey "b"]) eq_refl Hfield).
Defined.

Lemma removeError_gone_witness :
  NoDup (map oid (_externalErrorList (root at_a)))
  /\ heldIn takenCopy (_externalErrorList (root at_a))
  /\ exists v' : Value,
       result (removeError at_a takenCopy false s0) = Return v'
       /\ ~ heldIn takenCopy (_externalErrorList (root v'))
       /\ S (length (_externalErrorList (root v')))
          = length (_externalErrorList (root at_a)).
Proof.
  assert (NoDup (map oid (_externalErrorList (root at_a)))) as Hnodup
    by (apply (bool_decide_unpack
                 (NoDup (map oid (_externalErrorList (root at_a)))));
        vm_compute; exact I).
  assert (heldIn takenCopy (_externalErrorList (root at_a))) as Hheld
    by (apply Exists_cons_tl, Exists_cons_tl, Exists_cons_hd; reflexivity).
  split; [exact Hnodup|]. split; [exact Hheld|].
  exact (removeError_gone at_a takenCopy false s0 Hnodup Hheld).
Defined.

Lemma errorList_within_witness :
  completeErrorList at_a = Return [taken; late; takenCopy]
  /\ errorList at_a `sublist_of` [taken; late; takenCopy].
Proof.
  assert (completeErrorList at_a = Return [taken; late; takenCopy]) as Hcomplete
    by reflexivity.
  split; [exact Hcomplete|].
  exact (errorList_within_completeErrorList at_a _ Hcomplete).
Defined.

Lemma completeErrorList_descendant_witness :
  root at_a_b = root at_a
  /\ keyPath at_a_b = keyPath at_a ++ [SKey "b"]
  /\ completeErrorList at_a = Return [taken; late; takenCopy]
  /\ completeErrorList at_a_b = Return [late]
  /\ [late] `sublist_of` [taken; late; takenCopy].
Proof.
  split; [reflexivity|]. split; [reflexivity|].
  split; [reflexivity|]. split; [reflexivity|].
  exact (completeErrorList_descendant at_a at_a_b [SKey "b"] _ _
           eq_refl eq_refl eq_refl eq_refl).
Defined.

Lemma completeErrorList_raises_witness :
  keyPath at_a <> []
  /\ Forall sliceable (_errorList (root at_a) ++ _externalErrorList (root at_a))
  /\ (exists complete : list Obj, completeErrorList at_a = Return complete)
  /\ Exists (fun error => ~ sliceable error)
            (_errorList rootLost ++ _externalErrorList rootLost)
  /\ completeErrorList (VBranch 5 rootLost [SKey "a"]) = Throw TypeError
  /\ exists complete : list Obj, completeErrorList (VRoot rootLost) = Return complete.
Proof.
  assert (keyPath at_a <> []) as Hpath by discriminate.
  assert (Forall sliceable
            (_errorList (root at_a) ++ _externalErrorList (root at_a))) as Hall
    by (repeat constructor).
  assert (Exists (fun error => ~ sliceable error)
            (_errorList rootLost ++ _externalErrorList rootLost)) as Hsome
    by (apply Exists_cons_tl, Exists_cons_hd; vm_compute; tauto).
  destruct (completeErrorList_raises at_a) as (Hreturns & _ & _).
  destruct (completeErrorList_raises (VBranch 5 rootLost [SKey "a"]))
    as (_ & Hraises & _).
  destruct (completeErrorList_raises (VRoot rootLost)) as (_ & _ & Hroot).
  split; [exact Hpath|]. split; [exact Hall|].
  split; [exact (Hreturns Hpath Hall)|]. split; [exact Hsome|].
  split; [apply Hraises; [discriminate | exact Hsome] | exact (Hroot eq_refl)].
Defined.
